(** * Time-tick synchronisation of the root coordinator

    A shallow embedding of [internal/rootcoord/timeticksync.go]: the table of
    per-proxy reports, the DDL barrier, the drain that hands a complete round
    to the dispatcher, and the per-channel reduction of the dispatcher.

    Go maps are finite maps ([gmap]), Go sets ([map[Timestamp]struct{}]) are
    finite sets ([gset]); [typeutil.Timestamp] (uint64) and
    [typeutil.UniqueID] (int64) are integers of [Z] whose range is stated
    where it matters.  A [*chanTsMsg] that may be [nil] is an [option].
    Calls of the logger, of the metrics and of the liveness checker change no
    state of the synchroniser and are left out; the message stream that takes
    the heartbeats is outside the model. *)

From Stdlib Require Import ZArith Lia Sorted.
From stdpp Require Import base option list gmap sets strings pretty fin_maps fin_sets.

Local Open Scope Z_scope.

(** * Part I: the model *)

(** ** Machine integers *)

(** [math.MaxUint64] *)
Definition MaxUint64 : Z := 18446744073709551615.

Definition is_uint64 (x : Z) : Prop := 0 ≤ x ≤ MaxUint64.

(** [int64] addition of one, with Go's two's-complement wrap-around. *)
Definition int64_succ (x : Z) : Z :=
  (x + 1 + 9223372036854775808) `mod` 18446744073709551616 - 9223372036854775808.

(** ** Data *)

(** [type chanTsMsg struct] *)
Record chanTsMsg := ChanTsMsg {
  chanTs : gmap string Z;
  defaultTs : Z;
  cnt : Z
}.

(** The fields of [internalpb.ChannelTimeTickMsg] that the code reads;
    [SourceID] is [in.Base.SourceID]. *)
Record ChannelTimeTickMsg := ChannelTimeTick {
  SourceID : Z;
  ChannelNames : list string;
  Timestamps : list Z;
  DefaultTimestamp : Z
}.

(** [type timetickSync struct]: the fields that carry state.  [sendChan] is
    modelled apart, see [chanState]. *)
Record timetickSync := TimetickSync {
  sourceID : Z;
  proxyTimeTick : gmap Z (option chanTsMsg);
  ddlMinTs : Z;
  ddlTsSet : gset Z
}.

Definition set_proxyTimeTick (t : timetickSync) (m : gmap Z (option chanTsMsg)) : timetickSync :=
  {| sourceID := sourceID t; proxyTimeTick := m;
     ddlMinTs := ddlMinTs t; ddlTsSet := ddlTsSet t |}.

Definition set_ddl (t : timetickSync) (minTs : Z) (tsSet : gset Z) : timetickSync :=
  {| sourceID := sourceID t; proxyTimeTick := proxyTimeTick t;
     ddlMinTs := minTs; ddlTsSet := tsSet |}.

(** [newTimeTickSync]: empty table, empty barrier with [ddlMinTs = MaxUint64]. *)
Definition newTimeTickSync (sourceID : Z) : timetickSync :=
  {| sourceID := sourceID; proxyTimeTick := ∅;
     ddlMinTs := MaxUint64; ddlTsSet := ∅ |}.

(** ** The DDL barrier *)

(** [addDdlTimeTick] *)
Definition addDdlTimeTick (t : timetickSync) (ts : Z) : timetickSync :=
  set_ddl t (if ts <? ddlMinTs t then ts else ddlMinTs t) ({[ ts ]} ∪ ddlTsSet t).

(** The re-calculation loop of [removeDdlTimeTick]:
    [minTs := MaxUint64; for tt := range set { if tt < minTs { minTs = tt } }]. *)
Definition recalcMinTs (tsSet : gset Z) : Z :=
  set_fold (λ tt minTs, if tt <? minTs then tt else minTs) MaxUint64 tsSet.

(** [removeDdlTimeTick] *)
Definition removeDdlTimeTick (t : timetickSync) (ts : Z) : timetickSync :=
  let tsSet := ddlTsSet t ∖ {[ ts ]} in
  if decide (size tsSet = 0%nat) then set_ddl t MaxUint64 tsSet
  else if decide (ddlMinTs t = ts) then set_ddl t (recalcMinTs tsSet) tsSet
  else set_ddl t (ddlMinTs t) tsSet.

(** [getDdlMinTimeTick] *)
Definition getDdlMinTimeTick (t : timetickSync) : Z := ddlMinTs t.

(** A DDL timestamp: a uint64 other than [MaxUint64], the value that
    [newTimeTickSync] and [removeDdlTimeTick] store in [ddlMinTs] to mean
    that no DDL is outstanding. *)
Definition is_ddl_ts (ts : Z) : Prop := 0 ≤ ts < MaxUint64.

(** States of the barrier reachable from a fresh [timetickSync] by calls of
    [addDdlTimeTick] with DDL timestamps and of [removeDdlTimeTick] with
    uint64 arguments. *)
Inductive ddl_reachable : timetickSync → Prop :=
  | ddl_reach_new src : ddl_reachable (newTimeTickSync src)
  | ddl_reach_add t ts :
      ddl_reachable t → is_ddl_ts ts → ddl_reachable (addDdlTimeTick t ts)
  | ddl_reach_remove t ts :
      ddl_reachable t → is_uint64 ts → ddl_reachable (removeDdlTimeTick t ts).

(** [m] is the least element of [X]. *)
Definition is_min_of (m : Z) (X : gset Z) : Prop :=
  m ∈ X ∧ ∀ x, x ∈ X → m ≤ x.

(** The invariant of the data model: the cached minimum is the minimum of the
    set, and [MaxUint64] when the set is empty. *)
Definition ddl_inv (t : timetickSync) : Prop :=
  (∀ x, x ∈ ddlTsSet t → is_uint64 x) ∧
  (ddlTsSet t = ∅ → ddlMinTs t = MaxUint64) ∧
  (ddlTsSet t ≠ ∅ → is_min_of (ddlMinTs t) (ddlTsSet t)).

(** ** The table of proxy reports *)

(** [newChanTsMsg].  The loop stores [in.Timestamps[idx]] under
    [in.ChannelNames[idx]] for every index of [ChannelNames], a later
    duplicate name overwriting an earlier one.  Its only caller has checked
    that both lists have the same length, so every index is in range. *)
Definition newChanTsMsg (in_ : ChannelTimeTickMsg) (cnt : Z) : chanTsMsg :=
  {| chanTs := foldl (λ m p, <[p.1 := p.2]> m) ∅
                 (zip (ChannelNames in_) (Timestamps in_));
     defaultTs := DefaultTimestamp in_;
     cnt := cnt |}.

(** [chanTsMsg.getTimetick] *)
Definition getTimetick (c : chanTsMsg) (channelName : string) : Z :=
  match chanTs c !! channelName with
  | Some ts => ts
  | None => defaultTs c
  end.

(** The first loop of [sendToChannel]: the ids whose entry is [nil] and the
    largest [cnt] of the others.  The order of [idleProxyList] follows the
    iteration of the map; only its length is used by the control flow. *)
Definition idleProxyList (m : gmap Z (option chanTsMsg)) : list Z :=
  map_fold (λ id v acc, match v with None => acc ++ [id] | Some _ => acc end) [] m.

Definition maxCnt (m : gmap Z (option chanTsMsg)) : Z :=
  map_fold (λ _ v acc,
              match v with
              | Some c => if acc <? cnt c then cnt c else acc
              | None => acc
              end) 0 m.

(** The warning of [sendToChannel] is issued when some proxy is idle and
    [maxCnt % 10 == 0]; it changes no state. *)
Definition idleWarning (m : gmap Z (option chanTsMsg)) : option (list Z) :=
  if decide (idleProxyList m = []) then None
  else if decide (Z.rem (maxCnt m) 10 = 0) then Some (idleProxyList m) else None.

(** The second loop of [sendToChannel]:
    [for k, v := range t.proxyTimeTick { ptt[k] = v; t.proxyTimeTick[k] = nil }],
    returning [(ptt, t.proxyTimeTick)]. *)
Definition drainLoop (m : gmap Z (option chanTsMsg))
    : gmap Z (option chanTsMsg) * gmap Z (option chanTsMsg) :=
  map_fold (λ k v acc, (<[k := v]> acc.1, <[k := None]> acc.2)) (∅, m) m.

(** [sendToChannel], up to the send statement: the new state and the value
    that [t.sendChan <- ptt] sends, if that statement is reached. *)
Definition sendToChannel (t : timetickSync)
    : timetickSync * option (gmap Z (option chanTsMsg)) :=
  if decide (size (proxyTimeTick t) = 0%nat) then (t, None)
  else if decide (0 < length (idleProxyList (proxyTimeTick t)))%nat then (t, None)
  else let r := drainLoop (proxyTimeTick t) in
       (set_proxyTimeTick t r.2, Some r.1).

(** The return paths of [updateTimeTick].  [Ignored], [Blocked], [Regressed]
    and [Accepted] return [nil]; the other two return an error. *)
Inductive TickOutcome :=
  | Ignored | Malformed | UnknownProxy (id : Z) | Blocked | Regressed | Accepted.

(** The [error] that [updateTimeTick] returns; [None] is [nil].  The second
    message is formatted with the id of the proxy ([%d]). *)
Definition tick_error (o : TickOutcome) : option string :=
  match o with
  | Malformed => Some "invalid TimeTickMsg"%string
  | UnknownProxy id =>
      Some ("skip ChannelTimeTickMsg from un-recognized proxy node " +:+ pretty id)
  | _ => None
  end.

(** [updateTimeTick]: the new state, the snapshot sent by the drain if one
    was sent, and the return path taken. *)
Definition updateTimeTick (t : timetickSync) (in_ : ChannelTimeTickMsg)
    : timetickSync * option (gmap Z (option chanTsMsg)) * TickOutcome :=
  if decide (length (ChannelNames in_) = 0%nat ∧ DefaultTimestamp in_ = 0)
  then (t, None, Ignored)
  else if decide (length (Timestamps in_) ≠ length (ChannelNames in_))
  then (t, None, Malformed)
  else match proxyTimeTick t !! SourceID in_ with
  | None => (t, None, UnknownProxy (SourceID in_))
  | Some prev =>
      if getDdlMinTimeTick t <? DefaultTimestamp in_ then (t, None, Blocked)
      else
        let regressed :=
          match prev with
          | Some p => bool_decide (SourceID in_ = sourceID t) && (DefaultTimestamp in_ <=? defaultTs p)
          | None => false
          end in
        if regressed then (t, None, Regressed)
        else
          let msg :=
            match prev with
            | None => newChanTsMsg in_ 1
            | Some p => newChanTsMsg in_ (int64_succ (cnt p))
            end in
          (sendToChannel
             (set_proxyTimeTick t (<[SourceID in_ := Some msg]> (proxyTimeTick t))),
           Accepted)
  end.

(** [addProxy]; [id] is [sess.ServerID]. *)
Definition addProxy (t : timetickSync) (id : Z) : timetickSync :=
  set_proxyTimeTick t (<[id := None]> (proxyTimeTick t)).

(** [delProxy] *)
Definition delProxy (t : timetickSync) (id : Z)
    : timetickSync * option (gmap Z (option chanTsMsg)) :=
  match proxyTimeTick t !! id with
  | Some _ => sendToChannel (set_proxyTimeTick t (delete id (proxyTimeTick t)))
  | None => (t, None)
  end.

(** [clearProxy] *)
Definition clearProxy (t : timetickSync) (ids : list Z) : timetickSync :=
  set_proxyTimeTick t (foldl (λ m id, <[id := None]> m) (proxyTimeTick t) ids).

(** ** The queue between the drain and the dispatcher *)

(** [sendChan] is [make(chan ..., 16)].  A Go channel with a buffer holds the
    values sent and not yet received, in order; a send on a full buffer does
    not complete: the sender is parked with its value until a receive makes
    room.  [sendToChannel] runs under [t.lock], so at most one sender is
    parked at a time. *)
Definition sendChanCap : nat := 16.

Record chanState := ChanState {
  buf : list (gmap Z (option chanTsMsg));
  parked : option (gmap Z (option chanTsMsg))
}.

(** [ch <- v] *)
Definition chan_send (ch : chanState) (v : gmap Z (option chanTsMsg)) : chanState :=
  if decide (length (buf ch) < sendChanCap)%nat
  then {| buf := buf ch ++ [v]; parked := parked ch |}
  else {| buf := buf ch; parked := Some v |}.

(** [v, ok := <-ch] on an open channel: [None] when the receiver would wait.
    A parked sender is released, its value entering the buffer. *)
Definition chan_recv (ch : chanState)
    : option (gmap Z (option chanTsMsg) * chanState) :=
  match buf ch with
  | [] => None
  | v :: rest => Some (v, {| buf := rest ++ option_list (parked ch); parked := None |})
  end.

(** [sendToChannel] with its send statement.  The call has returned in the
    resulting state iff no sender is parked. *)
Definition sendToChannel_chan (t : timetickSync) (ch : chanState)
    : timetickSync * chanState :=
  match sendToChannel t with
  | (t', Some ptt) => (t', chan_send ch ptt)
  | (t', None) => (t', ch)
  end.

(** ** The dispatcher *)

(** The body of the goroutine started for one channel in [startWatch]: the
    least [getTimetick] over the snapshot, starting from the coordinator's
    own [ts].  [None] is the nil dereference of [tt.getTimetick] on a [nil]
    entry. *)
Definition reduceChannel (proxyTimetick : gmap Z (option chanTsMsg))
    (chanName : string) (ts : Z) : option Z :=
  map_fold (λ _ tt acc,
              match acc, tt with
              | Some mints, Some c =>
                  let currTs := getTimetick c chanName in
                  Some (if currTs <? mints then currTs else mints)
              | _, _ => None
              end) (Some ts) proxyTimetick.

(** One iteration of the loop of [startWatch] on a received snapshot. *)
Inductive iterResult :=
  | IterPanic
  | IterSkip
  | IterSend (heartbeats : gmap string Z).

(** [local := proxyTimetick[t.sourceID]] followed by the read of
    [local.chanTs]: a key that is missing yields [nil], and reading a field
    of [nil] faults ([None]). *)
Definition localChanTs (t : timetickSync)
    (proxyTimetick : gmap Z (option chanTsMsg)) : option (gmap string Z) :=
  match proxyTimetick !! sourceID t with
  | Some (Some local) => Some (chanTs local)
  | _ => None
  end.

Definition startWatch_iter (t : timetickSync)
    (proxyTimetick : gmap Z (option chanTsMsg)) : iterResult :=
  match localChanTs t proxyTimetick with
  | Some local_chanTs =>
      if decide (size local_chanTs = 0%nat) then IterSkip
      else if decide (map_Forall (λ chanName ts,
                        is_Some (reduceChannel proxyTimetick chanName ts)) local_chanTs)
      then IterSend (map_imap (λ chanName ts, reduceChannel proxyTimetick chanName ts)
                       local_chanTs)
      else IterPanic
  | None => IterPanic
  end.

(** The timestamp broadcast on [chanName] by the iteration on a snapshot, if
    there is one. *)
Definition heartbeat (t : timetickSync) (proxyTimetick : gmap Z (option chanTsMsg))
    (chanName : string) : option Z :=
  match startWatch_iter t proxyTimetick with
  | IterSend hb => hb !! chanName
  | _ => None
  end.

(** ** Runs *)

(** The calls that change the state of a [timetickSync]. *)
Inductive Event :=
  | EvAddDdl (ts : Z)
  | EvRemoveDdl (ts : Z)
  | EvUpdate (in_ : ChannelTimeTickMsg)
  | EvAddProxy (id : Z)
  | EvDelProxy (id : Z)
  | EvClearProxy (ids : list Z).

Definition step (t : timetickSync) (e : Event)
    : timetickSync * option (gmap Z (option chanTsMsg)) :=
  match e with
  | EvAddDdl ts => (addDdlTimeTick t ts, None)
  | EvRemoveDdl ts => (removeDdlTimeTick t ts, None)
  | EvUpdate in_ => (updateTimeTick t in_).1
  | EvAddProxy id => (addProxy t id, None)
  | EvDelProxy id => delProxy t id
  | EvClearProxy ids => (clearProxy t ids, None)
  end.

(** The snapshots sent on [sendChan] by a sequence of calls, in the order of
    the sends.  The channel is first-in first-out and loses nothing, so this
    is the order in which [startWatch] receives them. *)
Fixpoint run (t : timetickSync) (evs : list Event)
    : list (gmap Z (option chanTsMsg)) :=
  match evs with
  | [] => []
  | e :: evs' => option_list (step t e).2 ++ run (step t e).1 evs'
  end.

(** ** Predicates on the table *)

(** Every entry of the table holds a report. *)
Definition all_reported (m : gmap Z (option chanTsMsg)) : Prop :=
  map_Forall (λ _ v, is_Some v) m.

(** The round is complete: the table is not empty and every proxy reported. *)
Definition complete (m : gmap Z (option chanTsMsg)) : Prop :=
  m ≠ ∅ ∧ all_reported m.

(** Every entry of the table is [nil]. *)
Definition all_nil (m : gmap Z (option chanTsMsg)) : Prop :=
  map_Forall (λ _ v, v = None) m.

(** ** The parts of [updateTimeTick] *)

(** The count of the installed report. *)
Definition next_cnt (prev : option chanTsMsg) : Z :=
  match prev with
  | None => 1
  | Some p => int64_succ (cnt p)
  end.

(** The state in which [updateTimeTick] calls [sendToChannel]. *)
Definition install (t : timetickSync) (in_ : ChannelTimeTickMsg)
    (prev : option chanTsMsg) : timetickSync :=
  set_proxyTimeTick t
    (<[SourceID in_ := Some (newChanTsMsg in_ (next_cnt prev))]> (proxyTimeTick t)).

(** The report passes the two shape checks at the head of [updateTimeTick]. *)
Definition well_shaped (in_ : ChannelTimeTickMsg) : Prop :=
  ¬ (length (ChannelNames in_) = 0%nat ∧ DefaultTimestamp in_ = 0) ∧
  length (Timestamps in_) = length (ChannelNames in_).

(** ** Steps as a mutation of the table followed by a drain *)

(** The state in which a call reaches [sendToChannel], or in which it
    returns without calling it, and whether it calls it. *)
Definition mutate (t : timetickSync) (e : Event) : timetickSync * bool :=
  match e with
  | EvAddDdl ts => (addDdlTimeTick t ts, false)
  | EvRemoveDdl ts => (removeDdlTimeTick t ts, false)
  | EvUpdate in_ =>
      match (updateTimeTick t in_).2 with
      | Accepted => (install t in_ (default None (proxyTimeTick t !! SourceID in_)), true)
      | _ => (t, false)
      end
  | EvAddProxy id => (addProxy t id, false)
  | EvDelProxy id =>
      match proxyTimeTick t !! id with
      | Some _ => (set_proxyTimeTick t (delete id (proxyTimeTick t)), true)
      | None => (t, false)
      end
  | EvClearProxy ids => (clearProxy t ids, false)
  end.

(** ** Well-typed calls *)

(** The arguments of [addDdlTimeTick] are of type uint64. *)
Definition valid_event (e : Event) : Prop :=
  match e with
  | EvAddDdl ts => is_uint64 ts
  | _ => True
  end.

(** ** Which call stored each report of a snapshot *)

(** For every proxy whose entry holds a report, [track] records the set of
    outstanding DDL timestamps at the moment of the [updateTimeTick] that
    stored this report.  The record of a proxy is dropped when its entry is
    reset or removed. *)
Definition track (t : timetickSync) (g : gmap Z (gset Z)) (e : Event)
    : gmap Z (gset Z) :=
  match e with
  | EvUpdate in_ =>
      match (updateTimeTick t in_).2 with
      | Accepted => <[SourceID in_ := ddlTsSet t]> g
      | _ => g
      end
  | EvAddProxy id => delete id g
  | EvDelProxy id => delete id g
  | EvClearProxy ids => foldl (λ g id, delete id g) g ids
  | _ => g
  end.

(** The snapshots sent by a run, each with the record of the calls that
    stored its reports. *)
Fixpoint run_tracked (t : timetickSync) (g : gmap Z (gset Z)) (evs : list Event)
    : list (gmap Z (option chanTsMsg) * gmap Z (gset Z)) :=
  match evs with
  | [] => []
  | e :: evs' =>
      match (step t e).2 with
      | Some ptt => (ptt, track t g e) :: run_tracked (step t e).1 ∅ evs'
      | None => run_tracked (step t e).1 (track t g e) evs'
      end
  end.

(** The record covers exactly the entries that hold a report, and each
    report is below the timestamps recorded for it. *)
Definition tracked (m : gmap Z (option chanTsMsg)) (g : gmap Z (gset Z)) : Prop :=
  (∀ p, is_Some (g !! p) ↔ ∃ r, m !! p = Some (Some r)) ∧
  (∀ p B r ts, g !! p = Some B → m !! p = Some (Some r) → ts ∈ B → defaultTs r ≤ ts).

(** ** The heartbeats of a channel along a run *)

(** The loop of [startWatch] over the snapshots it receives: the heartbeats
    of each iteration, up to the first iteration that faults. *)
Fixpoint broadcasts (t : timetickSync) (snaps : list (gmap Z (option chanTsMsg)))
    : list (gmap string Z) :=
  match snaps with
  | [] => []
  | ptt :: rest =>
      match startWatch_iter t ptt with
      | IterPanic => []
      | IterSkip => broadcasts t rest
      | IterSend hb => hb :: broadcasts t rest
      end
  end.

(** The timestamps broadcast on one channel, in order. *)
Definition broadcast_on (t : timetickSync) (chanName : string)
    (snaps : list (gmap Z (option chanTsMsg))) : list Z :=
  omap (λ hb : gmap string Z, hb !! chanName) (broadcasts t snaps).

(** The timestamp that a report gives to a channel: [chanTs[chanName]] when
    present, [defaultTs] otherwise. *)
Definition report_value (chanName : string) (in_ : ChannelTimeTickMsg) : Z :=
  getTimetick (newChanTsMsg in_ 0) chanName.

(** Every proxy's successive reports give the channel non-decreasing
    timestamps. *)
Fixpoint mono_reports (chanName : string) (evs : list Event) : Prop :=
  match evs with
  | [] => True
  | e :: evs' =>
      match e with
      | EvUpdate in_ =>
          Forall (λ e', match e' with
                        | EvUpdate in' =>
                            SourceID in' = SourceID in_ →
                            report_value chanName in_ ≤ report_value chanName in'
                        | _ => True
                        end) evs'
      | _ => True
      end ∧ mono_reports chanName evs'
  end.

(** No call of the run adds a proxy to the table. *)
Fixpoint no_join (t : timetickSync) (evs : list Event) : Prop :=
  match evs with
  | [] => True
  | e :: evs' =>
      dom (proxyTimeTick (step t e).1) ⊆ dom (proxyTimeTick t) ∧
      no_join (step t e).1 evs'
  end.

(** The last value stored for each proxy, after one more call. *)
Definition lo_next (chanName : string) (t : timetickSync) (e : Event) (lo : Z → Z)
    : Z → Z :=
  match e with
  | EvUpdate in_ =>
      match (updateTimeTick t in_).2 with
      | Accepted => λ p, if decide (p = SourceID in_) then report_value chanName in_
                         else lo p
      | _ => lo
      end
  | _ => lo
  end.

(** A value below every report of the run. *)
Definition floor_of (c : string) (evs : list Event) : Z :=
  foldr (λ e acc, match e with
                  | EvUpdate in_ => Z.min (report_value c in_) acc
                  | _ => acc
                  end) 0 evs.

(** ** Further functions of the file *)

(** [minTimeTick]: [ret] starts at 0, which the loop reads as not yet set. *)
Definition minTimeTick (tt : list Z) : Z :=
  foldl (λ ret t, if decide (ret = 0) then t else if t <? ret then t else ret) 0 tt.

(** [getProxyNum] *)
Definition getProxyNum (t : timetickSync) : nat := size (proxyTimeTick t).

(** A sequence of calls of [updateTimeTick], keeping the state only. *)
Definition ticks (t : timetickSync) (ins : list ChannelTimeTickMsg) : timetickSync :=
  foldl (λ t in_, (updateTimeTick t in_).1.1) t ins.

(** The state after a sequence of calls. *)
Definition after (t : timetickSync) (evs : list Event) : timetickSync :=
  foldl (λ t e, (step t e).1) t evs.

(** The count that the next accepted report continues. *)
Definition count_of (prev : option chanTsMsg) : Z :=
  match prev with
  | None => 0
  | Some r => cnt r
  end.

(** The calls that can change the entry of proxy [q] from [nil] to a report,
    or remove it: the reports of [q] and the removal of [q]. *)
Definition touches (q : Z) (e : Event) : Prop :=
  match e with
  | EvUpdate in_ => SourceID in_ = q
  | EvDelProxy id => id = q
  | _ => False
  end.

(** * Part II: properties *)

(** Bounds on literals of type uint64. *)
Ltac u64 := unfold is_ddl_ts, is_uint64, MaxUint64 in *; lia.

Create HintDb ddl.

(** ** Lemmas on the barrier *)

Lemma recalcMinTs_empty : recalcMinTs ∅ = MaxUint64.
Proof. unfold recalcMinTs. by rewrite set_fold_empty. Qed.

Lemma recalcMinTs_fold (X : gset Z) :
  (∀ x, x ∈ X → x ≤ MaxUint64) →
  (∀ x, x ∈ X → recalcMinTs X ≤ x) ∧
  (X = ∅ → recalcMinTs X = MaxUint64) ∧
  (X ≠ ∅ → recalcMinTs X ∈ X).
Proof.
  unfold recalcMinTs.
  apply (set_fold_ind_L
    (λ r Y, (∀ x, x ∈ Y → x ≤ MaxUint64) →
            (∀ x, x ∈ Y → r ≤ x) ∧ (Y = ∅ → r = MaxUint64) ∧ (Y ≠ ∅ → r ∈ Y))).
  - intros _. split; [set_solver|]. split; [done|]. by intros [].
  - intros x Y r Hx IH Hle.
    destruct IH as (Hlb & Hemp & Hin); [set_solver|].
    assert (x ≤ MaxUint64) as Hxle by (apply Hle; set_solver).
    split; [|split].
    + intros y [->%elem_of_singleton|Hy]%elem_of_union;
        destruct (Z.ltb_spec x r); try lia.
      * specialize (Hlb _ Hy). lia.
      * by apply Hlb.
    + intros Habs. exfalso. set_solver.
    + intros _. destruct (Z.ltb_spec x r); [set_solver|].
      destruct (decide (Y = ∅)) as [HY|HY].
      * specialize (Hemp HY). assert (x = r) as -> by lia. set_solver.
      * set_solver.
Qed.

Lemma recalcMinTs_spec (X : gset Z) :
  (∀ x, x ∈ X → x ≤ MaxUint64) → X ≠ ∅ → is_min_of (recalcMinTs X) X.
Proof.
  intros Hle HX. destruct (recalcMinTs_fold X Hle) as (Hlb & _ & Hin).
  split; auto.
Qed.

Lemma is_min_of_unique m m' X : is_min_of m X → is_min_of m' X → m = m'.
Proof. intros [H1 H2] [H3 H4]. specialize (H2 _ H3). specialize (H4 _ H1). lia. Qed.

Lemma ddl_inv_new src : ddl_inv (newTimeTickSync src).
Proof. repeat split; simpl; try done; set_solver. Qed.

Lemma ddl_inv_add t ts : is_uint64 ts → ddl_inv t → ddl_inv (addDdlTimeTick t ts).
Proof.
  intros Hts (Hr & Hemp & Hne). unfold ddl_inv, addDdlTimeTick. simpl.
  split; [|split].
  - intros x [->%elem_of_singleton|Hx]%elem_of_union; auto.
  - intros Habs. exfalso. set_solver.
  - intros _. destruct (decide (ddlTsSet t = ∅)) as [HX|HX].
    + rewrite (Hemp HX), HX. destruct Hts as [_ Hts].
      destruct (Z.ltb_spec ts MaxUint64).
      * split; [set_solver|]. intros x Hx. assert (x = ts) as -> by set_solver. lia.
      * assert (ts = MaxUint64) as -> by lia.
        split; [set_solver|]. intros x Hx. assert (x = MaxUint64) as -> by set_solver. lia.
    + destruct (Hne HX) as [Hin Hlb].
      destruct (Z.ltb_spec ts (ddlMinTs t)).
      * split; [set_solver|].
        intros x [->%elem_of_singleton|Hx]%elem_of_union; [lia|].
        specialize (Hlb _ Hx). lia.
      * split; [set_solver|].
        intros x [->%elem_of_singleton|Hx]%elem_of_union; [lia|]. by apply Hlb.
Qed.

Lemma removeDdlTimeTick_set t ts :
  ddlTsSet (removeDdlTimeTick t ts) = ddlTsSet t ∖ {[ ts ]}.
Proof. unfold removeDdlTimeTick. repeat case_decide; done. Qed.

Lemma ddl_inv_remove t ts : ddl_inv t → ddl_inv (removeDdlTimeTick t ts).
Proof.
  intros (Hr & Hemp & Hne). unfold ddl_inv.
  rewrite removeDdlTimeTick_set.
  split; [intros x Hx; apply Hr; set_solver|].
  unfold removeDdlTimeTick.
  destruct (decide (size (ddlTsSet t ∖ {[ts]}) = 0%nat)) as [Hsz|Hsz]; simpl.
  { apply size_empty_iff in Hsz. apply leibniz_equiv in Hsz. split; [done|]. by intros []. }
  assert (ddlTsSet t ∖ {[ts]} ≠ ∅) as Hrem.
  { intros Heq. apply Hsz. rewrite Heq. apply size_empty. }
  split; [done|]. intros _.
  destruct (decide (ddlMinTs t = ts)) as [Heq|Hneq]; simpl.
  - apply recalcMinTs_spec; [|done]. intros x Hx. apply Hr. set_solver.
  - assert (ddlTsSet t ≠ ∅) as HX by set_solver.
    destruct (Hne HX) as [Hin Hlb]. split; [set_solver|].
    intros x Hx. apply Hlb. set_solver.
Qed.

#[local] Hint Resolve ddl_inv_new ddl_inv_add ddl_inv_remove : ddl.

Lemma ddl_reachable_inv t : ddl_reachable t → ddl_inv t.
Proof.
  induction 1 as [src|t ts _ IH Hts|t ts _ IH _]; auto with ddl.
  apply ddl_inv_add; [u64|done].
Qed.

Lemma ddl_reachable_below t x :
  ddl_reachable t → x ∈ ddlTsSet t → x < MaxUint64.
Proof.
  intros Hreach. revert x.
  induction Hreach as [src|t ts _ IH Hts|t ts _ IH _]; intros x.
  - simpl. set_solver.
  - simpl. intros [->%elem_of_singleton|Hx]%elem_of_union; [apply Hts|by apply IH].
  - rewrite removeDdlTimeTick_set. intros [Hx _]%elem_of_difference. by apply IH.
Qed.

(** The cached minimum is below every outstanding timestamp. *)
Lemma ddl_inv_lower_bound t ts : ddl_inv t → ts ∈ ddlTsSet t → ddlMinTs t ≤ ts.
Proof.
  intros (_ & _ & Hne) Hts.
  assert (ddlTsSet t ≠ ∅) as HX by set_solver.
  destruct (Hne HX) as [_ Hlb]. by apply Hlb.
Qed.

Lemma ddl_min_MaxUint64_iff t :
  ddl_inv t →
  ddlMinTs t = MaxUint64 ↔ ddlTsSet t = ∅ ∨ ddlTsSet t = {[ MaxUint64 ]}.
Proof.
  intros (Hr & Hemp & Hne). split.
  - intros Hmax. destruct (decide (ddlTsSet t = ∅)) as [HX|HX]; [by left|right].
    destruct (Hne HX) as [Hin Hlb]. rewrite Hmax in Hin, Hlb.
    apply set_eq. intros x. rewrite elem_of_singleton. split.
    + intros Hx. specialize (Hlb _ Hx). destruct (Hr _ Hx). lia.
    + by intros ->.
  - intros [HX|HX]; [by apply Hemp|].
    assert (ddlTsSet t ≠ ∅) as Hne' by (rewrite HX; set_solver).
    destruct (Hne Hne') as [Hin _]. rewrite HX in Hin. set_solver.
Qed.

Lemma addDdlTimeTick_remove_set (X : gset Z) ts : ts ∉ X → ({[ ts ]} ∪ X) ∖ {[ ts ]} = X.
Proof. set_solver. Qed.

(** ** The barrier: cached minimum and round trip *)

(** C6.  In every state reachable by calls of [addDdlTimeTick] with DDL
    timestamps (uint64 values other than the reserved [MaxUint64]) and of
    [removeDdlTimeTick], [getDdlMinTimeTick] is the least element of the set
    of outstanding timestamps when the set is not empty, and it is
    [MaxUint64] exactly when the set is empty.  In particular, after
    [removeDdlTimeTick ts] it is the least element of the remaining set, or
    [MaxUint64] when nothing remains. *)
Theorem ddl_barrier_min_invariant t :
  ddl_reachable t →
  (ddlTsSet t ≠ ∅ → is_min_of (getDdlMinTimeTick t) (ddlTsSet t)) ∧
  (getDdlMinTimeTick t = MaxUint64 ↔ ddlTsSet t = ∅) ∧
  (∀ ts,
     ddlTsSet (removeDdlTimeTick t ts) = ddlTsSet t ∖ {[ ts ]} ∧
     (ddlTsSet t ∖ {[ ts ]} = ∅ →
        getDdlMinTimeTick (removeDdlTimeTick t ts) = MaxUint64) ∧
     (ddlTsSet t ∖ {[ ts ]} ≠ ∅ →
        is_min_of (getDdlMinTimeTick (removeDdlTimeTick t ts)) (ddlTsSet t ∖ {[ ts ]}))).
Proof.
  intros Hreach. pose proof (ddl_reachable_inv _ Hreach) as Hinv.
  pose proof Hinv as (Hr & Hemp & Hne). unfold getDdlMinTimeTick.
  split; [done|]. split.
  - split; [|done]. intros Hmax.
    destruct (decide (ddlTsSet t = ∅)) as [HX|HX]; [done|].
    destruct (Hne HX) as [Hin _].
    pose proof (ddl_reachable_below t _ Hreach Hin). lia.
  - intros ts. pose proof (ddl_inv_remove t ts Hinv) as (_ & Hemp' & Hne').
    rewrite removeDdlTimeTick_set in Hemp', Hne'.
    split; [apply removeDdlTimeTick_set|]. by split.
Qed.

Lemma ddl_barrier_min_invariant_witness :
  let t := removeDdlTimeTick
             (addDdlTimeTick (addDdlTimeTick (newTimeTickSync 1) 5) 3) 3 in
  ddl_reachable t ∧ getDdlMinTimeTick t = 5 ∧
  (getDdlMinTimeTick t = MaxUint64 ↔ ddlTsSet t = ∅).
Proof.
  intros t.
  assert (ddl_reachable t) as Hreach.
  { repeat constructor; u64. }
  split; [exact Hreach|]. split; [vm_compute; reflexivity|].
  exact (proj1 (proj2 (ddl_barrier_min_invariant t Hreach))).
Defined.

(** C7 (as amended).  On a barrier whose cached minimum is the minimum of its
    set, [addDdlTimeTick ts] followed by [removeDdlTimeTick ts] restores the
    state exactly, provided [ts] was not outstanding before.  When [ts] was
    outstanding, [addDdlTimeTick ts] changes nothing and the removal takes
    [ts] out of the set, so the state is not restored. *)
Theorem ddl_add_remove_roundtrip t ts :
  ddl_inv t →
  (ts ∉ ddlTsSet t → removeDdlTimeTick (addDdlTimeTick t ts) ts = t) ∧
  (ts ∈ ddlTsSet t →
     addDdlTimeTick t ts = t ∧
     ddlTsSet (removeDdlTimeTick (addDdlTimeTick t ts) ts) = ddlTsSet t ∖ {[ ts ]} ∧
     removeDdlTimeTick (addDdlTimeTick t ts) ts ≠ t).
Proof.
  intros Hinv. pose proof Hinv as (Hr & Hemp & Hne). split.
  - intros Hts. destruct t as [src tbl m X]. simpl in *.
    unfold removeDdlTimeTick, addDdlTimeTick, set_ddl. simpl.
    rewrite (addDdlTimeTick_remove_set X ts Hts).
    destruct (decide (size X = 0%nat)) as [Hsz|Hsz].
    { apply size_empty_iff in Hsz. apply leibniz_equiv in Hsz.
      rewrite (Hemp Hsz). done. }
    assert (X ≠ ∅) as HX.
    { intros ->. by rewrite size_empty in Hsz. }
    destruct (Hne HX) as [Hin Hlb].
    destruct (Z.ltb_spec ts m) as [Hlt|Hge].
    + rewrite decide_True by done. f_equal.
      eapply is_min_of_unique; [|by apply Hne].
      apply recalcMinTs_spec; [|done]. intros x Hx. by apply Hr.
    + rewrite decide_False; [done|]. intros ->. done.
  - intros Hts.
    assert (addDdlTimeTick t ts = t) as Hadd.
    { pose proof (ddl_inv_lower_bound t ts Hinv Hts) as Hle.
      destruct t as [src tbl m X]. unfold addDdlTimeTick, set_ddl. simpl in *.
      destruct (Z.ltb_spec ts m); [lia|]. f_equal. set_solver. }
    rewrite Hadd. split; [done|]. split; [apply removeDdlTimeTick_set|].
    intros Heq. apply (f_equal ddlTsSet) in Heq.
    rewrite removeDdlTimeTick_set in Heq. set_solver.
Qed.

Lemma ddl_add_remove_roundtrip_witness :
  let t := addDdlTimeTick (newTimeTickSync 1) 5 in
  ddl_inv t ∧ (3 ∉ ddlTsSet t) ∧
  removeDdlTimeTick (addDdlTimeTick t 3) 3 = t.
Proof.
  intros t.
  assert (ddl_inv t) as Hinv.
  { apply ddl_inv_add; [u64|apply ddl_inv_new]. }
  assert (3 ∉ ddlTsSet t) as Hnot by (simpl; set_solver).
  split; [exact Hinv|]. split; [exact Hnot|].
  exact (proj1 (ddl_add_remove_roundtrip t 3 Hinv) Hnot).
Defined.

(** C7 (as stated) fails when [ts] is already outstanding: the set holds
    [ts] once, and the removal takes it out. *)
Lemma ddl_add_remove_not_roundtrip :
  ¬ (∀ t ts, ddl_inv t → removeDdlTimeTick (addDdlTimeTick t ts) ts = t).
Proof.
  intros Hclaim.
  assert (ddl_inv (addDdlTimeTick (newTimeTickSync 1) 5)) as Hinv.
  { apply ddl_inv_add; [u64|apply ddl_inv_new]. }
  specialize (Hclaim _ 5 Hinv).
  apply (f_equal getDdlMinTimeTick) in Hclaim. vm_compute in Hclaim. discriminate.
Qed.

(** ** Lemmas on the table and the drain *)

Lemma idleProxyList_nil (m : gmap Z (option chanTsMsg)) :
  idleProxyList m = [] ↔ all_reported m.
Proof.
  unfold idleProxyList, all_reported.
  apply (map_fold_weak_ind (λ r m, r = [] ↔ map_Forall (λ _ v, is_Some v) m)).
  - split; [intros _; apply map_Forall_empty|done].
  - intros i x m' r Hi IH. rewrite map_Forall_insert by done.
    destruct x as [c|].
    + rewrite IH. split; [by split; [eexists|]|by intros [_ ?]].
    + split.
      * intros Habs. by destruct r.
      * intros [[? Habs] _]. done.
Qed.

Lemma drainLoop_gen (m0 m : gmap Z (option chanTsMsg)) :
  map_fold (λ k v acc, (<[k := v]> acc.1, <[k := None]> acc.2)) (∅, m0) m
  = (m, ((λ _, None) <$> m) ∪ m0).
Proof.
  apply (map_fold_weak_ind (λ r m, r = (m, ((λ _, None) <$> m) ∪ m0))).
  - by rewrite fmap_empty, (left_id_L ∅ (∪)).
  - intros i x m' r Hi ->. simpl.
    by rewrite fmap_insert, insert_union_l.
Qed.

Lemma drainLoop_spec (m : gmap Z (option chanTsMsg)) :
  drainLoop m = (m, (λ _, None) <$> m).
Proof.
  unfold drainLoop. rewrite drainLoop_gen. f_equal.
  apply map_eq. intros i. rewrite lookup_union, !lookup_fmap.
  by destruct (m !! i).
Qed.

Lemma all_nil_fmap (m : gmap Z (option chanTsMsg)) : all_nil ((λ _, None) <$> m).
Proof.
  intros i x. rewrite lookup_fmap. destruct (m !! i); naive_solver.
Qed.

Lemma all_nil_empty : all_nil ∅.
Proof. apply map_Forall_empty. Qed.

Lemma all_nil_insert (m : gmap Z (option chanTsMsg)) id :
  all_nil m → all_nil (<[id := None]> m).
Proof. intros H. by apply map_Forall_insert_2. Qed.

Lemma all_nil_addProxy t id :
  all_nil (proxyTimeTick t) → all_nil (proxyTimeTick (addProxy t id)).
Proof. apply all_nil_insert. Qed.

Lemma sendToChannel_complete t :
  complete (proxyTimeTick t) →
  sendToChannel t
  = (set_proxyTimeTick t ((λ _, None) <$> proxyTimeTick t), Some (proxyTimeTick t)).
Proof.
  intros [Hne Hall]. unfold sendToChannel.
  rewrite decide_False by (by rewrite map_size_empty_iff).
  apply idleProxyList_nil in Hall. rewrite Hall.
  rewrite decide_False by (simpl; lia). by rewrite drainLoop_spec.
Qed.

Lemma sendToChannel_incomplete t :
  ¬ complete (proxyTimeTick t) → sendToChannel t = (t, None).
Proof.
  intros Hnot. unfold sendToChannel.
  destruct (decide (size (proxyTimeTick t) = 0%nat)) as [|Hsz]; [done|].
  rewrite map_size_empty_iff in Hsz.
  rewrite decide_True; [done|].
  destruct (idleProxyList (proxyTimeTick t)) eqn:Hidle; simpl; [|lia].
  exfalso. apply Hnot. split; [done|]. by apply idleProxyList_nil.
Qed.

Lemma complete_dec (m : gmap Z (option chanTsMsg)) : Decision (complete m).
Proof. unfold complete, all_reported. apply _. Defined.

(** The two outcomes of [sendToChannel]. *)
Lemma sendToChannel_cases t :
  (complete (proxyTimeTick t) ∧
   sendToChannel t
   = (set_proxyTimeTick t ((λ _, None) <$> proxyTimeTick t), Some (proxyTimeTick t)))
  ∨ (¬ complete (proxyTimeTick t) ∧ sendToChannel t = (t, None)).
Proof.
  destruct (complete_dec (proxyTimeTick t)) as [H|H].
  - left. split; [done|]. by apply sendToChannel_complete.
  - right. split; [done|]. by apply sendToChannel_incomplete.
Qed.

(** ** The drain *)

(** C3.  [sendToChannel] sends a snapshot iff the table is not empty and
    every entry holds a report.  It then sends exactly the table as it was
    and leaves every entry [nil]; otherwise it sends nothing and the state is
    unchanged. *)
Theorem sendToChannel_drains_iff_complete t :
  (is_Some (sendToChannel t).2 ↔ complete (proxyTimeTick t)) ∧
  (complete (proxyTimeTick t) →
     (sendToChannel t).2 = Some (proxyTimeTick t) ∧
     proxyTimeTick (sendToChannel t).1 = (λ _, None) <$> proxyTimeTick t ∧
     dom (proxyTimeTick (sendToChannel t).1) = dom (proxyTimeTick t) ∧
     all_nil (proxyTimeTick (sendToChannel t).1)) ∧
  (¬ complete (proxyTimeTick t) →
     (sendToChannel t).2 = None ∧ (sendToChannel t).1 = t).
Proof.
  destruct (sendToChannel_cases t) as [[Hc ->]|[Hc ->]]; simpl.
  - split; [split; [done|by eexists]|].
    split; [|done]. intros _. split; [done|]. split; [done|].
    split; [by rewrite dom_fmap_L|apply all_nil_fmap].
  - split; [split; [by intros [? ?]|done]|].
    split; [done|]. done.
Qed.

(** ** The queue *)

Lemma sendToChannel_chan_complete t ch :
  complete (proxyTimeTick t) →
  sendToChannel_chan t ch
  = (set_proxyTimeTick t ((λ _, None) <$> proxyTimeTick t),
     chan_send ch (proxyTimeTick t)).
Proof.
  intros Hc. unfold sendToChannel_chan. by rewrite sendToChannel_complete.
Qed.

(** C4 (as amended).  The drain of a complete table hands its snapshot to a
    queue of capacity 16 with a send that waits.  While the queue holds fewer
    than 16 snapshots the snapshot is appended.  When it holds 16, the table
    entries are already [nil] and the sender is parked with the snapshot; the
    next receive takes the oldest snapshot and the parked one enters the
    queue as its last element: nothing is dropped. *)
Theorem sendToChannel_full_queue_waits t ch :
  complete (proxyTimeTick t) → parked ch = None →
  sendChanCap = 16%nat ∧
  all_nil (proxyTimeTick (sendToChannel_chan t ch).1) ∧
  ((length (buf ch) < sendChanCap)%nat →
     buf (sendToChannel_chan t ch).2 = buf ch ++ [proxyTimeTick t] ∧
     parked (sendToChannel_chan t ch).2 = None) ∧
  (length (buf ch) = sendChanCap →
     buf (sendToChannel_chan t ch).2 = buf ch ∧
     parked (sendToChannel_chan t ch).2 = Some (proxyTimeTick t) ∧
     ∃ v ch', chan_recv (sendToChannel_chan t ch).2 = Some (v, ch') ∧
              head (buf ch) = Some v ∧
              buf ch' = tail (buf ch) ++ [proxyTimeTick t] ∧
              parked ch' = None ∧
              length (buf ch') = sendChanCap).
Proof.
  intros Hc Hp. rewrite sendToChannel_chan_complete by done. simpl.
  split; [done|]. split; [apply all_nil_fmap|]. unfold chan_send. split.
  - intros Hlt. rewrite decide_True by done. simpl. by rewrite Hp.
  - intros Hfull. rewrite decide_False by lia. simpl.
    split; [done|]. split; [done|].
    unfold chan_recv. simpl.
    destruct (buf ch) as [|v rest] eqn:Hbuf; [simpl in Hfull; discriminate|].
    eexists _, _. split; [done|]. simpl.
    split; [done|]. split; [done|]. split; [done|].
    rewrite length_app. simpl in *. lia.
Qed.

Lemma sendToChannel_full_queue_waits_witness :
  let in_ := ChannelTimeTick 1 ["c0"%string] [100] 100 in
  let t := install (addProxy (newTimeTickSync 1) 1) in_ None in
  let ch := ChanState (replicate 16 (proxyTimeTick t)) None in
  complete (proxyTimeTick t) ∧ parked ch = None ∧
  parked (sendToChannel_chan t ch).2 = Some (proxyTimeTick t).
Proof.
  intros in_ t ch.
  assert (complete (proxyTimeTick t)) as Hc.
  { apply (@bool_decide_unpack _ (complete_dec _)). vm_compute. exact I. }
  split; [exact Hc|]. split; [reflexivity|].
  exact (proj1 (proj2 (proj2 (proj2 (proj2
           (sendToChannel_full_queue_waits t ch Hc eq_refl))) eq_refl))).
Defined.

(** C4 (as stated) fails: with 16 snapshots queued the call does not return
    with the queue as it was; the snapshot is kept by the parked sender. *)
Lemma sendToChannel_full_queue_not_dropped :
  ¬ (∀ t ch,
       complete (proxyTimeTick t) → parked ch = None →
       length (buf ch) = 16%nat →
       sendToChannel_chan t ch
       = (set_proxyTimeTick t ((λ _, None) <$> proxyTimeTick t), ch)).
Proof.
  intros Hclaim.
  pose (in_ := ChannelTimeTick 1 ["c0"%string] [100] 100).
  pose (t := install (addProxy (newTimeTickSync 1) 1) in_ None).
  pose (ch := ChanState (replicate 16 (proxyTimeTick t)) None).
  assert (complete (proxyTimeTick t)) as Hc.
  { apply (@bool_decide_unpack _ (complete_dec _)). vm_compute. exact I. }
  specialize (Hclaim t ch Hc eq_refl eq_refl).
  apply (f_equal (λ x, parked x.2)) in Hclaim.
  rewrite sendToChannel_chan_complete in Hclaim by done.
  vm_compute in Hclaim. discriminate.
Qed.

(** ** [updateTimeTick] *)

Lemma updateTimeTick_inv t in_ t' sent o :
  updateTimeTick t in_ = (t', sent, o) →
  (o ≠ Accepted ∧ t' = t ∧ sent = None) ∨
  (o = Accepted ∧ well_shaped in_ ∧
   DefaultTimestamp in_ ≤ getDdlMinTimeTick t ∧
   ∃ prev, proxyTimeTick t !! SourceID in_ = Some prev ∧
           sendToChannel (install t in_ prev) = (t', sent)).
Proof.
  unfold updateTimeTick, well_shaped.
  destruct (decide (length (ChannelNames in_) = 0%nat ∧ DefaultTimestamp in_ = 0));
    [intros [= <- <- <-]; by left|].
  destruct (decide (length (Timestamps in_) ≠ length (ChannelNames in_))) as [|Hlen];
    [intros [= <- <- <-]; by left|].
  apply dec_stable in Hlen.
  destruct (proxyTimeTick t !! SourceID in_) as [prev|] eqn:Hprev;
    [|intros [= <- <- <-]; by left].
  destruct (Z.ltb_spec (getDdlMinTimeTick t) (DefaultTimestamp in_));
    [intros [= <- <- <-]; by left|].
  destruct prev as [p|].
  - destruct (bool_decide (SourceID in_ = sourceID t) && (DefaultTimestamp in_ <=? defaultTs p));
      [intros [= <- <- <-]; by left|].
    intros [= Hs <-]. right. split; [done|]. split; [done|]. split; [done|].
    exists (Some p). split; [done|]. unfold install, next_cnt.
    by destruct (sendToChannel _).
  - intros [= Hs <-]. right. split; [done|]. split; [done|]. split; [done|].
    exists None. split; [done|]. unfold install, next_cnt.
    by destruct (sendToChannel _).
Qed.

Lemma updateTimeTick_fresh t in_ :
  well_shaped in_ →
  proxyTimeTick t !! SourceID in_ = Some None →
  DefaultTimestamp in_ ≤ getDdlMinTimeTick t →
  updateTimeTick t in_ = (sendToChannel (install t in_ None), Accepted).
Proof.
  intros [Hne Hlen] Hprev Hddl. unfold updateTimeTick.
  rewrite decide_False by done. rewrite decide_False by (by intros ?).
  rewrite Hprev.
  destruct (Z.ltb_spec (getDdlMinTimeTick t) (DefaultTimestamp in_)); [lia|].
  done.
Qed.

Lemma updateTimeTick_regressed t in_ p :
  well_shaped in_ →
  proxyTimeTick t !! SourceID in_ = Some (Some p) →
  DefaultTimestamp in_ ≤ getDdlMinTimeTick t →
  SourceID in_ = sourceID t →
  DefaultTimestamp in_ ≤ defaultTs p →
  updateTimeTick t in_ = (t, None, Regressed).
Proof.
  intros [Hne Hlen] Hprev Hddl Hsrc Hle. unfold updateTimeTick.
  rewrite decide_False by done. rewrite decide_False by (by intros ?).
  rewrite Hprev.
  destruct (Z.ltb_spec (getDdlMinTimeTick t) (DefaultTimestamp in_)); [lia|].
  rewrite bool_decide_eq_true_2 by done.
  destruct (Z.leb_spec (DefaultTimestamp in_) (defaultTs p)); [done|lia].
Qed.

Lemma updateTimeTick_regressed_inv t in_ :
  (updateTimeTick t in_).2 = Regressed →
  ∃ p, proxyTimeTick t !! SourceID in_ = Some (Some p) ∧
       SourceID in_ = sourceID t ∧ DefaultTimestamp in_ ≤ defaultTs p.
Proof.
  unfold updateTimeTick.
  destruct (decide (length (ChannelNames in_) = 0%nat ∧ DefaultTimestamp in_ = 0));
    [done|].
  destruct (decide (length (Timestamps in_) ≠ length (ChannelNames in_))); [done|].
  destruct (proxyTimeTick t !! SourceID in_) as [[p|]|]; [| |done].
  - destruct (getDdlMinTimeTick t <? DefaultTimestamp in_); [done|].
    destruct (bool_decide (SourceID in_ = sourceID t)) eqn:Hb; simpl; [|done].
    destruct (Z.leb_spec (DefaultTimestamp in_) (defaultTs p)); simpl; [|done].
    intros _. exists p. by apply bool_decide_eq_true_1 in Hb.
  - by destruct (getDdlMinTimeTick t <? DefaultTimestamp in_).
Qed.

(** C5 (as amended).  A report with no channel names and [DefaultTimestamp = 0]
    is ignored: [updateTimeTick] returns [nil], whatever [Timestamps] holds.
    Any other report whose two lists differ in length is refused with the
    error "invalid TimeTickMsg".  In both cases the state is unchanged and
    nothing is sent. *)
Theorem updateTimeTick_shape_checks t in_ :
  (length (ChannelNames in_) = 0%nat ∧ DefaultTimestamp in_ = 0) ∨
  length (ChannelNames in_) ≠ length (Timestamps in_) →
  (updateTimeTick t in_).1 = (t, None) ∧
  (length (ChannelNames in_) = 0%nat ∧ DefaultTimestamp in_ = 0 →
     (updateTimeTick t in_).2 = Ignored ∧
     tick_error (updateTimeTick t in_).2 = None) ∧
  (¬ (length (ChannelNames in_) = 0%nat ∧ DefaultTimestamp in_ = 0) →
     (updateTimeTick t in_).2 = Malformed ∧
     tick_error (updateTimeTick t in_).2 = Some "invalid TimeTickMsg"%string).
Proof.
  intros Hshape. unfold updateTimeTick.
  destruct (decide (length (ChannelNames in_) = 0%nat ∧ DefaultTimestamp in_ = 0))
    as [Hi|Hi]; simpl.
  { split; [done|]. split; [done|]. by intros []. }
  destruct Hshape as [?|Hlen]; [done|].
  rewrite decide_True by (by intros ?). simpl.
  split; [done|]. split; [by intros ?|done].
Qed.

Lemma updateTimeTick_shape_checks_witness :
  let t := addProxy (newTimeTickSync 1) 1 in
  let in_ := ChannelTimeTick 1 ["c0"%string] [] 7 in
  ((length (ChannelNames in_) = 0%nat ∧ DefaultTimestamp in_ = 0) ∨
   length (ChannelNames in_) ≠ length (Timestamps in_)) ∧
  (updateTimeTick t in_).1 = (t, None).
Proof.
  intros t in_.
  assert ((length (ChannelNames in_) = 0%nat ∧ DefaultTimestamp in_ = 0) ∨
          length (ChannelNames in_) ≠ length (Timestamps in_)) as H.
  { right. simpl. lia. }
  split; [exact H|].
  exact (proj1 (updateTimeTick_shape_checks t in_ H)).
Defined.

(** C5 (as stated) fails: the report with both lists empty and
    [DefaultTimestamp = 0] gets no error. *)
Lemma updateTimeTick_empty_report_no_error :
  ¬ (∀ t in_,
       (ChannelNames in_ = [] ∧ Timestamps in_ = [] ∧ DefaultTimestamp in_ = 0) ∨
       length (ChannelNames in_) ≠ length (Timestamps in_) →
       is_Some (tick_error (updateTimeTick t in_).2) ∧
       (updateTimeTick t in_).1 = (t, None)).
Proof.
  intros Hclaim.
  destruct (Hclaim (addProxy (newTimeTickSync 1) 1) (ChannelTimeTick 1 [] [] 0))
    as [[e He] _]; [by left|].
  vm_compute in He. discriminate.
Qed.

(** ** Membership *)

(** C8 (as amended).  [addProxy id] stores [nil] under [id] without looking
    at the table.  It inserts [(id, nil)] when [id] is absent, leaves the
    state identical when the entry of [id] is already [nil], and replaces a
    report held for [id] by [nil]; no other entry and no other field changes,
    and a second [addProxy id] changes nothing more. *)
Theorem addProxy_sets_nil t id :
  proxyTimeTick (addProxy t id) !! id = Some None ∧
  (∀ id', id' ≠ id → proxyTimeTick (addProxy t id) !! id' = proxyTimeTick t !! id') ∧
  (proxyTimeTick t !! id = Some None → addProxy t id = t) ∧
  (∀ r, proxyTimeTick t !! id = Some (Some r) → addProxy t id ≠ t) ∧
  addProxy (addProxy t id) id = addProxy t id ∧
  sourceID (addProxy t id) = sourceID t ∧
  ddlMinTs (addProxy t id) = ddlMinTs t ∧
  ddlTsSet (addProxy t id) = ddlTsSet t.
Proof.
  unfold addProxy. simpl. split; [apply lookup_insert_eq|].
  split; [intros id' Hne; by apply lookup_insert_ne|].
  split; [|split; [|split; [|done]]].
  - intros Hnil. destruct t. unfold set_proxyTimeTick. simpl in *.
    f_equal. by apply insert_id.
  - intros r Hr Heq. apply (f_equal (λ x, proxyTimeTick x !! id)) in Heq.
    simpl in Heq. rewrite lookup_insert_eq, Hr in Heq. discriminate.
  - unfold set_proxyTimeTick. simpl. f_equal. apply insert_insert_eq.
Qed.

(** C8 (as stated) fails: an entry that holds a report is reset to [nil].
    Proxies 1 and 2 are registered and proxy 2 has reported; [addProxy 2]
    discards its report. *)
Lemma addProxy_resets_report :
  ¬ (∀ t id, is_Some (proxyTimeTick t !! id) → addProxy t id = t).
Proof.
  intros Hclaim.
  pose (in_ := ChannelTimeTick 2 ["c0"%string] [100] 100).
  pose (t := (updateTimeTick (addProxy (addProxy (newTimeTickSync 1) 1) 2) in_).1.1).
  assert (is_Some (proxyTimeTick t !! 2)) as H by (vm_compute; by eexists).
  specialize (Hclaim t 2 H).
  apply (f_equal (λ x, proxyTimeTick x !! 2)) in Hclaim.
  vm_compute in Hclaim. discriminate.
Qed.

(** ** Steps *)

Lemma step_mutate t e :
  step t e = if (mutate t e).2 then sendToChannel (mutate t e).1
             else ((mutate t e).1, None).
Proof.
  destruct e as [ts|ts|in_|id|id|ids]; simpl; try done.
  - destruct (updateTimeTick t in_) as [[t' sent] o] eqn:Hupd. simpl.
    apply updateTimeTick_inv in Hupd.
    destruct Hupd as [(Ho & -> & ->)|(-> & _ & _ & prev & Hprev & Hs)].
    + by destruct o.
    + by rewrite Hprev.
  - unfold delProxy. by destruct (proxyTimeTick t !! id).
Qed.

Lemma mutate_sourceID t e : sourceID (mutate t e).1 = sourceID t.
Proof.
  destruct e as [ts|ts|in_|id|id|ids]; simpl; try done.
  - unfold removeDdlTimeTick. by repeat case_decide.
  - by destruct (updateTimeTick t in_).2.
  - by destruct (proxyTimeTick t !! id).
Qed.

Lemma sendToChannel_sourceID t : sourceID (sendToChannel t).1 = sourceID t.
Proof. by destruct (sendToChannel_cases t) as [[_ ->]|[_ ->]]. Qed.

Lemma step_sourceID t e : sourceID (step t e).1 = sourceID t.
Proof.
  rewrite step_mutate. destruct (mutate t e).2 eqn:Hb; simpl.
  - by rewrite sendToChannel_sourceID, mutate_sourceID.
  - apply mutate_sourceID.
Qed.

(** A step that sends a snapshot sends the complete table it reached and
    leaves that table with every entry [nil]. *)
Lemma step_sent t e t' S :
  step t e = (t', Some S) →
  (mutate t e).2 = true ∧ S = proxyTimeTick (mutate t e).1 ∧ complete S ∧
  t' = set_proxyTimeTick (mutate t e).1 ((λ _, None) <$> S).
Proof.
  rewrite step_mutate. destruct (mutate t e).2; [|done].
  destruct (sendToChannel_cases (mutate t e).1) as [[Hc ->]|[Hc ->]]; [|done].
  by intros [= <- <-].
Qed.

Lemma step_unsent t e t' :
  step t e = (t', None) → proxyTimeTick t' = proxyTimeTick (mutate t e).1.
Proof.
  rewrite step_mutate. destruct (mutate t e).2; [|by intros [= <-]].
  destruct (sendToChannel_cases (mutate t e).1) as [[_ ->]|[_ ->]];
    [done|by intros [= <-]].
Qed.

(** ** The coordinator's own report *)

(** C9.  [updateTimeTick] takes the [Regressed] path only against a previous
    report that is not [nil], and a drain leaves every entry [nil].  So when
    a step has sent a snapshot that carries the coordinator's accepted report
    [r], the coordinator's entry is [nil] afterwards and the next report of
    the coordinator is never [Regressed], whatever its [DefaultTimestamp]:
    it is [Accepted] as soon as it passes the shape and barrier checks that
    come first in [updateTimeTick].  With [DefaultTimestamp <= defaultTs r]
    the same report is [Regressed] against the entry [r] that the drain
    removed. *)
Theorem coordinator_regression_not_checked_after_drain t e t' S r in_ :
  step t e = (t', Some S) →
  S !! sourceID t = Some (Some r) →
  SourceID in_ = sourceID t →
  (∀ t0 in0, (updateTimeTick t0 in0).2 = Regressed →
     ∃ p, proxyTimeTick t0 !! SourceID in0 = Some (Some p) ∧
          SourceID in0 = sourceID t0 ∧ DefaultTimestamp in0 ≤ defaultTs p) ∧
  all_nil (proxyTimeTick t') ∧
  proxyTimeTick t' !! sourceID t = Some None ∧
  (updateTimeTick t' in_).2 ≠ Regressed ∧
  (well_shaped in_ → DefaultTimestamp in_ ≤ getDdlMinTimeTick t' →
     updateTimeTick t' in_ = (sendToChannel (install t' in_ None), Accepted) ∧
     (DefaultTimestamp in_ ≤ defaultTs r →
        (updateTimeTick (set_proxyTimeTick t' S) in_).2 = Regressed)).
Proof.
  intros Hstep HS Hsrc.
  pose proof (step_sourceID t e) as Hid. rewrite Hstep in Hid. simpl in Hid.
  apply step_sent in Hstep. destruct Hstep as (_ & HSeq & Hc & ->).
  assert (proxyTimeTick
            (set_proxyTimeTick (mutate t e).1 ((λ _, None) <$> S)) !! sourceID t
          = Some None) as Hnil.
  { simpl. by rewrite lookup_fmap, HS. }
  split; [|split; [|split; [|split]]].
  - intros t0 in0. apply updateTimeTick_regressed_inv.
  - apply all_nil_fmap.
  - done.
  - intros Hreg. apply updateTimeTick_regressed_inv in Hreg.
    destruct Hreg as (p & Hp & _). rewrite Hsrc, Hnil in Hp. discriminate.
  - intros Hshape Hddl. split.
    + apply updateTimeTick_fresh; [done| |done]. by rewrite Hsrc.
    + intros Hle. simpl in Hid.
      erewrite updateTimeTick_regressed; [done|done| |done|by rewrite Hsrc|done].
      simpl. rewrite Hsrc. exact HS.
Qed.

Lemma coordinator_regression_not_checked_after_drain_witness :
  let t := addProxy (newTimeTickSync 1) 1 in
  let in1 := ChannelTimeTick 1 ["c0"%string] [100] 100 in
  let in2 := ChannelTimeTick 1 ["c0"%string] [50] 50 in
  let r := newChanTsMsg in1 1 in
  let t' := set_proxyTimeTick t {[ 1 := None ]} in
  step t (EvUpdate in1) = (t', Some {[ 1 := Some r ]}) ∧
  (updateTimeTick t' in2).2 = Accepted.
Proof.
  intros t in1 in2 r t'.
  assert (step t (EvUpdate in1) = (t', Some {[ 1 := Some r ]})) as Hstep
    by (vm_compute; reflexivity).
  split; [exact Hstep|].
  assert (well_shaped in2) as Hshape.
  { split; simpl; [intros [? ?]; discriminate|reflexivity]. }
  assert (DefaultTimestamp in2 ≤ getDdlMinTimeTick t') as Hddl
    by (vm_compute; discriminate).
  exact (f_equal snd (proj1 (proj2 (proj2 (proj2 (proj2
    (coordinator_regression_not_checked_after_drain t (EvUpdate in1) t'
       {[ 1 := Some r ]} r in2 Hstep eq_refl eq_refl)))) Hshape Hddl))).
Defined.

(** ** The reduction of one channel *)

Lemma reduceChannel_spec (S : gmap Z (option chanTsMsg)) chanName ts :
  (is_Some (reduceChannel S chanName ts) ↔ all_reported S) ∧
  ∀ h, reduceChannel S chanName ts = Some h →
       h ≤ ts ∧
       (∀ p c, S !! p = Some (Some c) → h ≤ getTimetick c chanName) ∧
       (h = ts ∨ ∃ p c, S !! p = Some (Some c) ∧ h = getTimetick c chanName).
Proof.
  unfold reduceChannel, all_reported.
  apply (map_fold_weak_ind (λ r m,
    (is_Some r ↔ map_Forall (λ _ v, is_Some v) m) ∧
    ∀ h, r = Some h →
         h ≤ ts ∧
         (∀ p c, m !! p = Some (Some c) → h ≤ getTimetick c chanName) ∧
         (h = ts ∨ ∃ p c, m !! p = Some (Some c) ∧ h = getTimetick c chanName))).
  - split; [split; [intros _; apply map_Forall_empty|by eexists]|].
    intros h [= <-]. split; [lia|]. split; [|by left].
    intros p c. by rewrite lookup_empty.
  - intros i x m r Hi [IHs IH]. rewrite map_Forall_insert by done. split.
    + destruct r as [mints|], x as [c|]; simpl.
      * split; [intros _; split; [by eexists|by apply IHs]|by eexists].
      * split; [by intros [? ?]|by intros [[? ?] _]].
      * split; [by intros [? ?]|]. intros [_ Hm]. by apply IHs in Hm.
      * split; [by intros [? ?]|by intros [[? ?] _]].
    + intros h Hh. destruct r as [mints|], x as [c|]; simpl in Hh; try done.
      injection Hh as <-.
      destruct (IH mints eq_refl) as (Hle & Hlb & Hat).
      destruct (Z.ltb_spec (getTimetick c chanName) mints) as [Hlt|Hge].
      * split; [lia|]. split.
        -- intros p c'. rewrite lookup_insert. case_decide as Hp.
           ++ intros [= <-]. lia.
           ++ intros Hc'. specialize (Hlb _ _ Hc'). lia.
        -- right. exists i, c. by rewrite lookup_insert_eq.
      * split; [lia|]. split.
        -- intros p c'. rewrite lookup_insert. case_decide as Hp.
           ++ intros [= <-]. lia.
           ++ intros Hc'. by apply (Hlb _ _ Hc').
        -- destruct Hat as [->|(p & c' & Hp & ->)]; [by left|].
           right. exists p, c'. split; [|done].
           rewrite lookup_insert_ne; [done|]. intros <-. by rewrite Hi in Hp.
Qed.

(** A heartbeat is the least [getTimetick] over the snapshot, whose entries
    all hold reports, the coordinator's among them. *)
Lemma heartbeat_spec t (S : gmap Z (option chanTsMsg)) chanName h :
  heartbeat t S chanName = Some h →
  all_reported S ∧
  (∃ local, S !! sourceID t = Some (Some local) ∧
            is_Some (chanTs local !! chanName)) ∧
  (∀ p c, S !! p = Some (Some c) → h ≤ getTimetick c chanName) ∧
  (∃ p c, S !! p = Some (Some c) ∧ h = getTimetick c chanName).
Proof.
  unfold heartbeat, startWatch_iter, localChanTs.
  destruct (S !! sourceID t) as [[local|]|] eqn:Hlocal; try done.
  destruct (decide (size (chanTs local) = 0%nat)); [done|].
  destruct (decide _) as [Hall|]; [|done].
  rewrite map_lookup_imap.
  destruct (chanTs local !! chanName) as [ts|] eqn:Hts; [|done]. simpl.
  intros Hred.
  destruct (reduceChannel_spec S chanName ts) as [Hsome Hspec].
  destruct (Hspec h Hred) as (Hle & Hlb & Hat).
  split; [apply Hsome; by eexists|].
  split; [exists local; split; [done|by eexists]|].
  split; [done|].
  destruct Hat as [->|Hat]; [|done].
  exists (sourceID t), local. split; [done|].
  unfold getTimetick. by rewrite Hts.
Qed.

Lemma startWatch_iter_no_panic t (S : gmap Z (option chanTsMsg)) :
  all_reported S → is_Some (localChanTs t S) → startWatch_iter t S ≠ IterPanic.
Proof.
  intros Hall [lc Hlc]. unfold startWatch_iter. rewrite Hlc.
  destruct (decide (size lc = 0%nat)); [done|].
  rewrite decide_True; [done|].
  intros c ts _. by apply reduceChannel_spec.
Qed.

(** ** The dispatcher's read of the coordinator's report *)

(** C10.  The read of [local.chanTs] succeeds exactly on the snapshots that
    map the coordinator's id to a report; on a snapshot without that key, or
    with [nil] under it, the iteration faults.  A snapshot sent by
    [sendToChannel] from a table in which the coordinator is registered maps
    the coordinator's id to a report, and the iteration on it does not
    fault. *)
Theorem startWatch_local_access :
  (∀ t S, is_Some (localChanTs t S) ↔ ∃ local, S !! sourceID t = Some (Some local)) ∧
  (∀ t S, S !! sourceID t = None ∨ S !! sourceID t = Some None →
          localChanTs t S = None ∧ startWatch_iter t S = IterPanic) ∧
  (∀ t t' S, sendToChannel t = (t', Some S) →
             is_Some (proxyTimeTick t !! sourceID t) →
             (∃ local, S !! sourceID t' = Some (Some local)) ∧
             is_Some (localChanTs t' S) ∧
             startWatch_iter t' S ≠ IterPanic).
Proof.
  split; [|split].
  - intros t S. unfold localChanTs.
    destruct (S !! sourceID t) as [[local|]|]; split;
      first [by intros [? ?] | by intros [? ?] | by eexists].
  - intros t S H. unfold startWatch_iter, localChanTs.
    by destruct H as [-> | ->].
  - intros t t' S Hsend [v Hv].
    pose proof (sendToChannel_sourceID t) as Hid. rewrite Hsend in Hid. simpl in Hid.
    destruct (sendToChannel_cases t) as [[[Hne Hall] Heq]|[_ Heq]];
      rewrite Heq in Hsend; [|done].
    injection Hsend as <- <-. simpl.
    destruct (Hall _ _ Hv) as [local ->].
    assert (is_Some (localChanTs (set_proxyTimeTick t ((λ _, None) <$> proxyTimeTick t))
                       (proxyTimeTick t))) as Hlc.
    { unfold localChanTs. simpl. rewrite Hv. by eexists. }
    split; [by exists local|]. split; [done|].
    by apply startWatch_iter_no_panic.
Qed.

(** ** The barrier along a run *)

Lemma ddl_inv_ext t t' :
  ddlMinTs t' = ddlMinTs t → ddlTsSet t' = ddlTsSet t → ddl_inv t → ddl_inv t'.
Proof. unfold ddl_inv. by intros -> ->. Qed.

Lemma sendToChannel_ddl t :
  ddlMinTs (sendToChannel t).1 = ddlMinTs t ∧ ddlTsSet (sendToChannel t).1 = ddlTsSet t.
Proof. by destruct (sendToChannel_cases t) as [[_ ->]|[_ ->]]. Qed.

Lemma ddl_inv_mutate t e : valid_event e → ddl_inv t → ddl_inv (mutate t e).1.
Proof.
  destruct e as [ts|ts|in_|id|id|ids]; simpl; intros Hv Hinv;
    auto using ddl_inv_add, ddl_inv_remove.
  - by destruct (updateTimeTick t in_).2.
  - by destruct (proxyTimeTick t !! id).
Qed.

Lemma ddl_inv_step t e : valid_event e → ddl_inv t → ddl_inv (step t e).1.
Proof.
  intros Hv Hinv. rewrite step_mutate.
  pose proof (ddl_inv_mutate t e Hv Hinv) as Hm.
  destruct (mutate t e).2; simpl; [|done].
  destruct (sendToChannel_ddl (mutate t e).1) as [H1 H2].
  by apply (ddl_inv_ext (mutate t e).1).
Qed.

(** ** The record of the calls that stored the reports *)

Lemma run_tracked_fst t g evs : (run_tracked t g evs).*1 = run t evs.
Proof.
  revert t g. induction evs as [|e evs IH]; intros t g; simpl; [done|].
  destruct (step t e).2; simpl; by rewrite IH.
Qed.

Lemma tracked_all_nil m : all_nil m → tracked m ∅.
Proof.
  intros Hnil. split.
  - intros p. rewrite lookup_empty. split; [by intros [? ?]|].
    intros [r Hr]. by specialize (Hnil _ _ Hr).
  - intros p B r ts. by rewrite lookup_empty.
Qed.

Lemma tracked_reset m g id : tracked m g → tracked (<[id := None]> m) (delete id g).
Proof.
  intros [Hdom Hle]. split.
  - intros p. rewrite lookup_insert, lookup_delete. case_decide as Hp.
    + split; [by intros [? ?]|by intros [? ?]].
    + apply Hdom.
  - intros p B r ts. rewrite lookup_insert, lookup_delete. case_decide; [done|].
    apply Hle.
Qed.

Lemma tracked_delete m g id : tracked m g → tracked (delete id m) (delete id g).
Proof.
  intros [Hdom Hle]. split.
  - intros p. rewrite !lookup_delete. case_decide.
    + split; [by intros [? ?]|by intros [? ?]].
    + apply Hdom.
  - intros p B r ts. rewrite !lookup_delete. case_decide; [done|]. apply Hle.
Qed.

Lemma tracked_delete_absent m g id : m !! id = None → tracked m g → tracked m (delete id g).
Proof.
  intros Hid Ht. rewrite <-(delete_id m id) by done. by apply tracked_delete.
Qed.

Lemma tracked_clear ids : ∀ m g,
  tracked m g →
  tracked (foldl (λ m id, <[id := None]> m) m ids) (foldl (λ g id, delete id g) g ids).
Proof.
  induction ids as [|id ids IH]; intros m g Ht; simpl; [done|].
  apply IH. by apply tracked_reset.
Qed.

Lemma tracked_mutate t g e :
  ddl_inv t → tracked (proxyTimeTick t) g →
  tracked (proxyTimeTick (mutate t e).1) (track t g e).
Proof.
  intros Hinv Ht. destruct e as [ts|ts|in_|id|id|ids]; simpl.
  - done.
  - unfold removeDdlTimeTick. by repeat case_decide.
  - destruct (updateTimeTick t in_) as [[t' sent] o] eqn:Hupd. simpl.
    apply updateTimeTick_inv in Hupd.
    destruct Hupd as [(Ho & -> & ->)|(-> & _ & Hddl & prev & Hprev & Hs)].
    { by destruct o. }
    simpl. destruct Ht as [Hdom Hle]. split.
    + intros p. rewrite !lookup_insert. case_decide.
      * split; intros _; by eexists.
      * apply Hdom.
    + intros p B r ts. rewrite !lookup_insert. case_decide.
      * intros [= <-] [= <-] Hts. simpl.
        pose proof (ddl_inv_lower_bound _ _ Hinv Hts). unfold getDdlMinTimeTick in Hddl. lia.
      * apply Hle.
  - by apply tracked_reset.
  - destruct (proxyTimeTick t !! id) eqn:Hid; simpl.
    + by apply tracked_delete.
    + by apply tracked_delete_absent.
  - by apply tracked_clear.
Qed.

Lemma run_tracked_spec evs : ∀ t g i S g',
  ddl_inv t → Forall valid_event evs → tracked (proxyTimeTick t) g →
  run_tracked t g evs !! i = Some (S, g') →
  complete S ∧ tracked S g'.
Proof.
  induction evs as [|e evs IH]; intros t g i S g' Hinv Hv Ht Hi; simpl in Hi; [done|].
  apply Forall_cons in Hv as [Hve Hv].
  pose proof (ddl_inv_step t e Hve Hinv) as Hinv'.
  pose proof (tracked_mutate t g e Hinv Ht) as Ht'.
  destruct (step t e) as [t' [S'|]] eqn:Hstep; simpl in *.
  - apply step_sent in Hstep. destruct Hstep as (_ & -> & Hc & ->).
    destruct i as [|i]; simpl in Hi.
    + by injection Hi as <- <-.
    + eapply IH; [done|done| |done]. simpl. apply tracked_all_nil, all_nil_fmap.
  - apply step_unsent in Hstep as Heq.
    eapply IH; [done|done| |done]. by rewrite Heq.
Qed.

(** ** DDL safety *)

(** C1 (as amended).  Take a run from a state with a sound barrier and a
    table whose entries are all [nil], a snapshot [S] sent in that run, and a
    timestamp [ts] that was outstanding at the moment of every
    [updateTimeTick] whose report is in [S].  Every report of [S] has such a
    recorded call, and its [defaultTs] is at most [ts].  A heartbeat computed
    from [S] for a channel is at most [ts] as soon as one report of [S] gives
    that channel a timestamp not above its own [defaultTs]. *)
Theorem ddl_safety t0 evs i S g ts :
  ddl_inv t0 → all_nil (proxyTimeTick t0) → Forall valid_event evs →
  run_tracked t0 ∅ evs !! i = Some (S, g) →
  (∀ p B, g !! p = Some B → ts ∈ B) →
  dom g = dom S ∧
  (∀ p r, S !! p = Some (Some r) → defaultTs r ≤ ts) ∧
  (∀ chanName h,
     heartbeat t0 S chanName = Some h →
     (∃ p r, S !! p = Some (Some r) ∧ getTimetick r chanName ≤ defaultTs r) →
     h ≤ ts).
Proof.
  intros Hinv Hnil Hv Hi Hts.
  destruct (run_tracked_spec evs t0 ∅ i S g Hinv Hv (tracked_all_nil _ Hnil) Hi)
    as [[Hne Hall] [Hdom Hle]].
  assert (∀ p r, S !! p = Some (Some r) → defaultTs r ≤ ts) as Hdef.
  { intros p r Hr. destruct (proj2 (Hdom p)) as [B HB]; [by eexists|].
    eapply Hle; [done|done|]. by eapply Hts. }
  split; [|split; [done|]].
  - apply set_eq. intros p. rewrite !elem_of_dom, Hdom. split.
    + intros [r Hr]. by eexists.
    + intros [v Hp]. destruct (Hall _ _ Hp) as [r ->]. by exists r.
  - intros chanName h Hh (p & r & Hr & Hchan).
    apply heartbeat_spec in Hh. destruct Hh as (_ & _ & Hlb & _).
    specialize (Hlb _ _ Hr). specialize (Hdef _ _ Hr). lia.
Qed.

Lemma ddl_safety_witness :
  let t0 := addProxy (newTimeTickSync 1) 1 in
  let in_ := ChannelTimeTick 1 ["c0"%string] [90] 100 in
  let S : gmap Z (option chanTsMsg) := {[ 1 := Some (newChanTsMsg in_ 1) ]} in
  let g : gmap Z (gset Z) := {[ 1 := {[ 500 ]} ]} in
  run_tracked t0 ∅ [EvAddDdl 500; EvUpdate in_] !! 0%nat = Some (S, g) ∧
  heartbeat t0 S "c0"%string = Some 90 ∧
  ∀ p r, S !! p = Some (Some r) → defaultTs r ≤ 500.
Proof.
  intros t0 in_ S g.
  assert (ddl_inv t0) as Hinv by apply (ddl_inv_new 1).
  assert (all_nil (proxyTimeTick t0)) as Hnil.
  { apply all_nil_addProxy, all_nil_empty. }
  assert (Forall valid_event [EvAddDdl 500; EvUpdate in_]) as Hv.
  { repeat constructor; u64. }
  assert (run_tracked t0 ∅ [EvAddDdl 500; EvUpdate in_] !! 0%nat = Some (S, g)) as Hi
    by (vm_compute; reflexivity).
  assert (∀ p B, g !! p = Some B → 500 ∈ B) as Hts.
  { intros p B [_ <-]%lookup_singleton_Some. set_solver. }
  split; [exact Hi|]. split; [vm_compute; reflexivity|].
  exact (proj1 (proj2 (ddl_safety t0 _ 0%nat S g 500 Hinv Hnil Hv Hi Hts))).
Defined.

(** C1 (as stated) fails: the barrier is compared with [DefaultTimestamp]
    only, and a report may give a channel a larger timestamp.  With 500
    outstanding, the report with [DefaultTimestamp = 100] and 1000 for "c0"
    is accepted, and the heartbeat on "c0" is 1000. *)
Lemma ddl_safety_needs_channel_bound :
  ¬ (∀ t0 evs i S g ts chanName h,
       ddl_inv t0 → all_nil (proxyTimeTick t0) → Forall valid_event evs →
       run_tracked t0 ∅ evs !! i = Some (S, g) →
       (∀ p B, g !! p = Some B → ts ∈ B) →
       heartbeat t0 S chanName = Some h →
       h ≤ ts).
Proof.
  intros Hclaim.
  pose (t0 := addProxy (newTimeTickSync 1) 1).
  pose (in_ := ChannelTimeTick 1 ["c0"%string] [1000] 100).
  pose (S := {[ 1 := Some (newChanTsMsg in_ 1) ]} : gmap Z (option chanTsMsg)).
  pose (g := {[ 1 := {[ 500 ]} ]} : gmap Z (gset Z)).
  assert (ddl_inv t0) as Hinv by apply (ddl_inv_new 1).
  assert (all_nil (proxyTimeTick t0)) as Hnil.
  { apply all_nil_addProxy, all_nil_empty. }
  assert (Forall valid_event [EvAddDdl 500; EvUpdate in_]) as Hv.
  { repeat constructor; u64. }
  assert (run_tracked t0 ∅ [EvAddDdl 500; EvUpdate in_] !! 0%nat = Some (S, g)) as Hi
    by (vm_compute; reflexivity).
  assert (∀ p B, g !! p = Some B → 500 ∈ B) as Hts.
  { intros p B [_ <-]%lookup_singleton_Some. set_solver. }
  assert (heartbeat t0 S "c0"%string = Some 1000) as Hh by (vm_compute; reflexivity).
  specialize (Hclaim t0 _ 0%nat S g 500 "c0"%string 1000 Hinv Hnil Hv Hi Hts Hh).
  lia.
Qed.

(** ** The heartbeats of a channel along a run *)

Lemma startWatch_iter_ext t t' S :
  sourceID t' = sourceID t → startWatch_iter t' S = startWatch_iter t S.
Proof. intros H. unfold startWatch_iter, localChanTs. by rewrite H. Qed.

Lemma broadcasts_ext t t' snaps :
  sourceID t' = sourceID t → broadcasts t' snaps = broadcasts t snaps.
Proof.
  intros H. induction snaps as [|S rest IH]; simpl; [done|].
  by rewrite (startWatch_iter_ext t t' S H), IH.
Qed.

Lemma broadcast_on_ext t t' c snaps :
  sourceID t' = sourceID t → broadcast_on t' c snaps = broadcast_on t c snaps.
Proof. intros H. unfold broadcast_on. by rewrite (broadcasts_ext t t'). Qed.

Lemma clear_lookup_report ids : ∀ (m : gmap Z (option chanTsMsg)) p r,
  foldl (λ m id, <[id := None]> m) m ids !! p = Some (Some r) → m !! p = Some (Some r).
Proof.
  induction ids as [|id ids IH]; intros m p r; simpl; [done|].
  intros H. apply IH in H. rewrite lookup_insert in H. by case_decide.
Qed.

Lemma sendToChannel_dom t :
  dom (proxyTimeTick (sendToChannel t).1) = dom (proxyTimeTick t).
Proof.
  destruct (sendToChannel_cases t) as [[_ ->]|[_ ->]]; simpl; [|done].
  by rewrite dom_fmap_L.
Qed.

Lemma step_dom t e :
  dom (proxyTimeTick (step t e).1) = dom (proxyTimeTick (mutate t e).1).
Proof.
  rewrite step_mutate. destruct (mutate t e).2; simpl; [|done].
  apply sendToChannel_dom.
Qed.

Section one_channel.

(** The channel whose heartbeats are followed. *)
Variable c : string.

Lemma mutate_lo t e (lo : Z → Z) :
  (∀ p r, proxyTimeTick t !! p = Some (Some r) → getTimetick r c = lo p) →
  ∀ p r, proxyTimeTick (mutate t e).1 !! p = Some (Some r) →
         getTimetick r c = lo_next c t e lo p.
Proof.
  intros Hlo p r. destruct e as [ts|ts|in_|id|id|ids]; simpl.
  - apply Hlo.
  - unfold removeDdlTimeTick. repeat case_decide; apply Hlo.
  - destruct (updateTimeTick t in_).2; try apply Hlo.
    simpl. rewrite lookup_insert. case_decide as Hp.
    + intros [= <-]. by rewrite decide_True.
    + rewrite decide_False by done. apply Hlo.
  - rewrite lookup_insert. case_decide; [done|apply Hlo].
  - destruct (proxyTimeTick t !! id); simpl; [|apply Hlo].
    rewrite lookup_delete. case_decide; [done|apply Hlo].
  - intros H. apply clear_lookup_report in H. by apply Hlo.
Qed.

Lemma lo_next_ge t e evs (lo : Z → Z) :
  (∀ in_, EvUpdate in_ ∈ e :: evs → lo (SourceID in_) ≤ report_value c in_) →
  ∀ p, lo p ≤ lo_next c t e lo p.
Proof.
  intros Hlo p. destruct e as [ts|ts|in_|id|id|ids]; simpl; try lia.
  destruct (updateTimeTick t in_).2; try lia.
  case_decide as Hp; [|lia]. subst p. apply Hlo. apply list_elem_of_here.
Qed.

Lemma lo_next_tail t e evs (lo : Z → Z) :
  mono_reports c (e :: evs) →
  (∀ in_, EvUpdate in_ ∈ e :: evs → lo (SourceID in_) ≤ report_value c in_) →
  ∀ in_, EvUpdate in_ ∈ evs → lo_next c t e lo (SourceID in_) ≤ report_value c in_.
Proof.
  intros [Hhead _] Hlo in' Hin.
  assert (lo (SourceID in') ≤ report_value c in') as Hold.
  { apply Hlo. by apply list_elem_of_further. }
  destruct e as [ts|ts|in_|id|id|ids]; simpl; try done.
  destruct (updateTimeTick t in_).2; try done.
  case_decide as Hp; [|done].
  rewrite Forall_forall in Hhead. by apply (Hhead _ Hin).
Qed.

Lemma broadcast_on_sorted evs : ∀ t (lo : Z → Z),
  no_join t evs → mono_reports c evs →
  (∀ p r, proxyTimeTick t !! p = Some (Some r) → getTimetick r c = lo p) →
  (∀ in_, EvUpdate in_ ∈ evs → lo (SourceID in_) ≤ report_value c in_) →
  StronglySorted Z.le (broadcast_on t c (run t evs)) ∧
  ∀ b, (∀ p, p ∈ dom (proxyTimeTick t) → b ≤ lo p) →
       Forall (Z.le b) (broadcast_on t c (run t evs)).
Proof.
  induction evs as [|e evs IH]; intros t lo Hnj Hmono Htab Hlo.
  { split; [constructor|intros; constructor]. }
  destruct Hnj as [Hdom Hnj].
  pose proof (mutate_lo t e lo Htab) as Htab'.
  pose proof (lo_next_ge t e evs lo Hlo) as Hge.
  pose proof (lo_next_tail t e evs lo Hmono Hlo) as Hlo'.
  destruct Hmono as [_ Hmono].
  pose proof (step_sourceID t e) as Hid.
  rewrite step_dom in Hdom.
  simpl. destruct (step t e) as [t' [S|]] eqn:Hstep; simpl in *.
  - apply step_sent in Hstep. destruct Hstep as (_ & HS & [Hne Hall] & Ht').
    destruct (IH t' (lo_next c t e lo) Hnj Hmono) as [IHs IHb]; [|done|].
    { subst t'. simpl. intros p r. rewrite lookup_fmap.
      by destruct (S !! p). }
    rewrite (broadcast_on_ext t t' c) in IHs, IHb by done.
    assert (dom (proxyTimeTick t') = dom S) as Hdom'.
    { subst t'. simpl. by rewrite dom_fmap_L. }
    unfold broadcast_on in *. simpl.
    destruct (startWatch_iter t S) as [| |hb] eqn:Hit.
    + split; [constructor|intros; constructor].
    + split; [done|]. intros b Hb. apply IHb. intros p Hp.
      rewrite Hdom' in Hp. rewrite HS in Hp. specialize (Hb p (Hdom p Hp)).
      specialize (Hge p). lia.
    + simpl. destruct (hb !! c) as [h|] eqn:Hh.
      * assert (heartbeat t S c = Some h) as Hbeat.
        { unfold heartbeat. by rewrite Hit. }
        apply heartbeat_spec in Hbeat.
        destruct Hbeat as (_ & _ & Hlb & p0 & r0 & Hp0 & Hh0).
        split.
        -- constructor; [done|]. apply IHb. intros p Hp.
           rewrite Hdom' in Hp. apply elem_of_dom in Hp as [v Hv].
           destruct (Hall _ _ Hv) as [r ->].
           specialize (Hlb _ _ Hv). rewrite HS in Hv.
           by rewrite <-(Htab' _ _ Hv).
        -- intros b Hb. constructor.
           ++ rewrite Hh0. rewrite HS in Hp0. rewrite (Htab' _ _ Hp0).
              assert (p0 ∈ dom (proxyTimeTick (mutate t e).1)) as Hin
                by (apply elem_of_dom; by eexists).
              specialize (Hb p0 (Hdom p0 Hin)). specialize (Hge p0). lia.
           ++ apply IHb. intros p Hp. rewrite Hdom', HS in Hp.
              specialize (Hb p (Hdom p Hp)). specialize (Hge p). lia.
      * split; [done|]. intros b Hb. apply IHb. intros p Hp.
        rewrite Hdom', HS in Hp.
        specialize (Hb p (Hdom p Hp)). specialize (Hge p). lia.
  - apply step_unsent in Hstep as Heq.
    destruct (IH t' (lo_next c t e lo) Hnj Hmono) as [IHs IHb]; [|done|].
    { by rewrite Heq. }
    rewrite (broadcast_on_ext t t' c) in IHs, IHb by done.
    split; [done|]. intros b Hb. apply IHb. intros p Hp. rewrite Heq in Hp.
    specialize (Hb p (Hdom p Hp)). specialize (Hge p). lia.
Qed.

Lemma floor_of_le evs in_ :
  EvUpdate in_ ∈ evs → floor_of c evs ≤ report_value c in_.
Proof.
  induction evs as [|e evs IH]; [by intros ?%elem_of_nil|].
  intros [<-|Hin]%elem_of_cons; simpl; [lia|].
  specialize (IH Hin). destruct e; lia.
Qed.

End one_channel.

Lemma no_join_dec t evs : Decision (no_join t evs).
Proof.
  revert t. induction evs as [|e evs IH]; intros t; simpl; [apply _|].
  specialize (IH (step t e).1). apply _.
Defined.

(** ** Per-channel monotonicity *)

(** C2 (as amended).  In a run that starts from a table whose entries are all
    [nil] and in which no call adds a proxy to the table (proxies may be
    removed or reset), if every proxy's successive reports give the channel
    non-decreasing timestamps, the timestamps broadcast on the channel by the
    successive iterations of the dispatcher are non-decreasing. *)
Theorem per_channel_monotone t0 evs chanName :
  all_nil (proxyTimeTick t0) → no_join t0 evs → mono_reports chanName evs →
  StronglySorted Z.le (broadcast_on t0 chanName (run t0 evs)).
Proof.
  intros Hnil Hnj Hmono.
  apply (broadcast_on_sorted chanName evs t0 (λ _, floor_of chanName evs));
    [done|done| |].
  - intros p r Hr. by specialize (Hnil _ _ Hr).
  - intros in_ Hin. by apply floor_of_le.
Qed.

Lemma per_channel_monotone_witness :
  let t0 := addProxy (addProxy (newTimeTickSync 1) 1) 2 in
  let evs := [EvUpdate (ChannelTimeTick 1 ["c0"%string] [200] 200);
              EvUpdate (ChannelTimeTick 2 ["c0"%string] [150] 150);
              EvUpdate (ChannelTimeTick 1 ["c0"%string] [300] 300);
              EvDelProxy 2] in
  all_nil (proxyTimeTick t0) ∧ no_join t0 evs ∧ mono_reports "c0" evs ∧
  broadcast_on t0 "c0" (run t0 evs) = [150; 300] ∧
  StronglySorted Z.le (broadcast_on t0 "c0" (run t0 evs)).
Proof.
  intros t0 evs.
  assert (all_nil (proxyTimeTick t0)) as Hnil.
  { do 2 apply all_nil_addProxy. apply all_nil_empty. }
  assert (no_join t0 evs) as Hnj.
  { apply (@bool_decide_unpack _ (no_join_dec t0 evs)). vm_compute. exact I. }
  assert (mono_reports "c0" evs) as Hmono.
  { repeat (split || constructor); simpl; done. }
  split; [exact Hnil|]. split; [exact Hnj|]. split; [exact Hmono|].
  split; [vm_compute; reflexivity|].
  exact (per_channel_monotone t0 evs "c0" Hnil Hnj Hmono).
Defined.

(** C2 (as stated) fails across a round in which a proxy is added: the new
    proxy's first report may be below the last broadcast.  The coordinator
    reports 200 for "c0", which is broadcast; proxy 2 joins; the coordinator
    reports 300 and proxy 2 reports 150: the next broadcast is 150. *)
Lemma per_channel_not_monotone_on_join :
  ¬ (∀ t0 evs chanName,
       all_nil (proxyTimeTick t0) → mono_reports chanName evs →
       StronglySorted Z.le (broadcast_on t0 chanName (run t0 evs))).
Proof.
  intros Hclaim.
  pose (t0 := addProxy (newTimeTickSync 1) 1).
  pose (evs := [EvUpdate (ChannelTimeTick 1 ["c0"%string] [200] 200);
                EvAddProxy 2;
                EvUpdate (ChannelTimeTick 1 ["c0"%string] [300] 300);
                EvUpdate (ChannelTimeTick 2 ["c0"%string] [150] 150)]).
  assert (all_nil (proxyTimeTick t0)) as Hnil.
  { apply all_nil_addProxy, all_nil_empty. }
  assert (mono_reports "c0" evs) as Hmono.
  { repeat (split || constructor); simpl; done. }
  specialize (Hclaim t0 evs "c0"%string Hnil Hmono).
  assert (broadcast_on t0 "c0" (run t0 evs) = [200; 150]) as Heq
    by (vm_compute; reflexivity).
  rewrite Heq in Hclaim. apply StronglySorted_inv in Hclaim as [_ Hall].
  apply Forall_cons in Hall as [Hle _]. lia.
Qed.

(** * Part III: further properties of the code *)

(** ** The barrier *)

(** X1.  Removing a timestamp that is not outstanding changes nothing, on a
    barrier whose cached minimum is the minimum of its set. *)
Theorem removeDdlTimeTick_absent t ts :
  ddl_inv t → ts ∉ ddlTsSet t → removeDdlTimeTick t ts = t.
Proof.
  intros (Hr & Hemp & Hne) Hts. destruct t as [src tbl m X]. simpl in *.
  unfold removeDdlTimeTick, set_ddl. simpl.
  assert (X ∖ {[ ts ]} = X) as -> by set_solver.
  destruct (decide (size X = 0%nat)) as [Hsz|Hsz].
  { apply size_empty_iff in Hsz. apply leibniz_equiv in Hsz.
    by rewrite (Hemp Hsz). }
  assert (X ≠ ∅) as HX.
  { intros ->. by rewrite size_empty in Hsz. }
  destruct (Hne HX) as [Hin _].
  rewrite decide_False; [done|]. by intros ->.
Qed.

Lemma removeDdlTimeTick_absent_witness :
  let t := addDdlTimeTick (newTimeTickSync 1) 5 in
  ddl_inv t ∧ (7 ∉ ddlTsSet t) ∧ removeDdlTimeTick t 7 = t.
Proof.
  intros t.
  assert (ddl_inv t) as Hinv.
  { apply ddl_inv_add; [u64|apply ddl_inv_new]. }
  assert (7 ∉ ddlTsSet t) as Hnot by (simpl; set_solver).
  split; [exact Hinv|]. split; [exact Hnot|].
  exact (removeDdlTimeTick_absent t 7 Hinv Hnot).
Defined.

(** X2.  The state after two [addDdlTimeTick] does not depend on their order,
    adding the same timestamp twice is adding it once, and the cached minimum
    after an addition is the smaller of the timestamp and the former
    minimum. *)
Theorem addDdlTimeTick_order t a b :
  addDdlTimeTick (addDdlTimeTick t a) b = addDdlTimeTick (addDdlTimeTick t b) a ∧
  addDdlTimeTick (addDdlTimeTick t a) a = addDdlTimeTick t a ∧
  getDdlMinTimeTick (addDdlTimeTick t a) = Z.min a (getDdlMinTimeTick t).
Proof.
  destruct t as [src tbl m X].
  unfold addDdlTimeTick, set_ddl, getDdlMinTimeTick. simpl.
  split; [|split].
  - f_equal.
    + destruct (Z.ltb_spec a m), (Z.ltb_spec b m);
        repeat (match goal with |- context [?x <? ?y] => destruct (Z.ltb_spec x y) end);
        lia.
    + set_solver.
  - f_equal.
    + destruct (Z.ltb_spec a m);
        repeat (match goal with |- context [?x <? ?y] => destruct (Z.ltb_spec x y) end);
        lia.
    + set_solver.
  - destruct (Z.ltb_spec a m); lia.
Qed.

Lemma ddl_min_lt_iff t x :
  ddl_inv t → is_uint64 x →
  getDdlMinTimeTick t < x ↔ ∃ ts, ts ∈ ddlTsSet t ∧ ts < x.
Proof.
  intros Hinv Hu. unfold getDdlMinTimeTick. split.
  - intros Hlt. destruct Hinv as (_ & Hemp & Hne).
    destruct (decide (ddlTsSet t = ∅)) as [HX|HX].
    + rewrite (Hemp HX) in Hlt. destruct Hu. lia.
    + destruct (Hne HX) as [Hin _]. by exists (ddlMinTs t).
  - intros (ts & Hts & Hlt).
    pose proof (ddl_inv_lower_bound t ts Hinv Hts). lia.
Qed.

Lemma updateTimeTick_blocked_min t in_ :
  well_shaped in_ → is_Some (proxyTimeTick t !! SourceID in_) →
  (updateTimeTick t in_).2 = Blocked ↔ getDdlMinTimeTick t < DefaultTimestamp in_.
Proof.
  intros [Hign Hlen] [prev Hprev]. unfold updateTimeTick.
  rewrite decide_False by done. rewrite decide_False by (by intros ?).
  rewrite Hprev.
  destruct (Z.ltb_spec (getDdlMinTimeTick t) (DefaultTimestamp in_)) as [Hlt|Hge];
    [done|].
  destruct prev as [p|]; simpl;
    [destruct (bool_decide (SourceID in_ = sourceID t) &&
               (DefaultTimestamp in_ <=? defaultTs p)); simpl|];
    (split; [done|lia]).
Qed.

(** X3.  On a sound barrier, a report of uint64 default timestamp that passes
    the shape checks and comes from a registered proxy is discarded as
    [Blocked] exactly when some outstanding DDL timestamp is below its
    [DefaultTimestamp]; a blocked report changes nothing, sends nothing and
    returns no error. *)
Theorem updateTimeTick_blocked_iff t in_ :
  ddl_inv t → well_shaped in_ → is_Some (proxyTimeTick t !! SourceID in_) →
  is_uint64 (DefaultTimestamp in_) →
  ((updateTimeTick t in_).2 = Blocked ↔
     ∃ ts, ts ∈ ddlTsSet t ∧ ts < DefaultTimestamp in_) ∧
  ((updateTimeTick t in_).2 = Blocked →
     (updateTimeTick t in_).1 = (t, None) ∧
     tick_error (updateTimeTick t in_).2 = None).
Proof.
  intros Hinv Hshape Hreg Hu.
  rewrite (updateTimeTick_blocked_min t in_ Hshape Hreg).
  split; [by apply ddl_min_lt_iff|].
  intros Hlt. destruct Hshape as [Hign Hlen], Hreg as [prev Hprev].
  unfold updateTimeTick.
  rewrite decide_False by done. rewrite decide_False by (by intros ?).
  rewrite Hprev.
  destruct (Z.ltb_spec (getDdlMinTimeTick t) (DefaultTimestamp in_)); [done|lia].
Qed.

Lemma updateTimeTick_blocked_iff_witness :
  let t := addDdlTimeTick (addProxy (newTimeTickSync 1) 1) 500 in
  let in_ := ChannelTimeTick 1 [] [] 600 in
  ddl_inv t ∧ well_shaped in_ ∧ (updateTimeTick t in_).2 = Blocked.
Proof.
  intros t in_.
  assert (ddl_inv t) as Hinv.
  { apply ddl_inv_add; [u64|apply (ddl_inv_new 1)]. }
  assert (well_shaped in_) as Hshape.
  { split; simpl; [intros [_ ?]; discriminate|reflexivity]. }
  assert (is_Some (proxyTimeTick t !! SourceID in_)) as Hreg by (vm_compute; by eexists).
  assert (is_uint64 (DefaultTimestamp in_)) as Hu by (simpl; u64).
  split; [exact Hinv|]. split; [exact Hshape|].
  apply (proj1 (updateTimeTick_blocked_iff t in_ Hinv Hshape Hreg Hu)).
  exists 500. split; [simpl; set_solver|simpl; lia].
Defined.

(** ** The return paths of [updateTimeTick] *)

(** X4.  A report is accepted exactly when it passes the two shape checks,
    its proxy is registered, its [DefaultTimestamp] does not exceed the
    cached barrier minimum, and it is not a report of the coordinator at or
    below the [defaultTs] of the coordinator's stored report.  A report that
    is not accepted changes nothing and sends nothing. *)
Theorem updateTimeTick_accepted_iff t in_ :
  ((updateTimeTick t in_).2 = Accepted ↔
     well_shaped in_ ∧
     DefaultTimestamp in_ ≤ getDdlMinTimeTick t ∧
     ∃ prev, proxyTimeTick t !! SourceID in_ = Some prev ∧
             ¬ (SourceID in_ = sourceID t ∧
                ∃ p, prev = Some p ∧ DefaultTimestamp in_ ≤ defaultTs p)) ∧
  ((updateTimeTick t in_).2 ≠ Accepted → (updateTimeTick t in_).1 = (t, None)).
Proof.
  split.
  - split.
    + intros Hacc. destruct (updateTimeTick t in_) as [[t' sent] o] eqn:Hupd.
      simpl in Hacc. subst o. pose proof Hupd as Hupd'.
      apply updateTimeTick_inv in Hupd.
      destruct Hupd as [(Ho & _)|(_ & Hshape & Hddl & prev & Hprev & _)]; [done|].
      split; [done|]. split; [done|]. exists prev. split; [done|].
      intros (Hsrc & p & -> & Hle).
      rewrite (updateTimeTick_regressed t in_ p Hshape Hprev Hddl Hsrc Hle) in Hupd'.
      discriminate.
    + intros ([Hign Hlen] & Hddl & prev & Hprev & Hnot). unfold updateTimeTick.
      rewrite decide_False by done. rewrite decide_False by (by intros ?).
      rewrite Hprev.
      destruct (Z.ltb_spec (getDdlMinTimeTick t) (DefaultTimestamp in_)); [lia|].
      destruct prev as [p|]; [|done].
      destruct (bool_decide (SourceID in_ = sourceID t)) eqn:Hb; simpl; [|done].
      apply bool_decide_eq_true_1 in Hb.
      destruct (Z.leb_spec (DefaultTimestamp in_) (defaultTs p)); [|done].
      exfalso. apply Hnot. split; [done|]. by exists p.
  - intros Hne. destruct (updateTimeTick t in_) as [[t' sent] o] eqn:Hupd.
    simpl in *. apply updateTimeTick_inv in Hupd.
    destruct Hupd as [(_ & -> & ->)|(-> & _)]; done.
Qed.

(** X5.  [updateTimeTick] returns an error exactly when the report is not of
    the ignored kind (no channel names and [DefaultTimestamp = 0]) and either
    its two lists differ in length or its proxy is not registered.  Blocked
    and regressed reports return [nil]. *)
Theorem updateTimeTick_error_iff t in_ :
  is_Some (tick_error (updateTimeTick t in_).2) ↔
  ¬ (length (ChannelNames in_) = 0%nat ∧ DefaultTimestamp in_ = 0) ∧
  (length (Timestamps in_) ≠ length (ChannelNames in_) ∨
   proxyTimeTick t !! SourceID in_ = None).
Proof.
  unfold updateTimeTick.
  destruct (decide (length (ChannelNames in_) = 0%nat ∧ DefaultTimestamp in_ = 0))
    as [Hi|Hi]; simpl.
  { split; [by intros [? ?]|by intros [? _]]. }
  destruct (decide (length (Timestamps in_) ≠ length (ChannelNames in_))) as [Hl|Hl];
    simpl.
  { split; [intros _; split; [done|by left]|by eexists]. }
  apply dec_stable in Hl.
  destruct (proxyTimeTick t !! SourceID in_) as [prev|] eqn:Hprev; simpl.
  - destruct prev as [p|];
      destruct (getDdlMinTimeTick t <? DefaultTimestamp in_); simpl;
      try destruct (bool_decide (SourceID in_ = sourceID t) &&
                    (DefaultTimestamp in_ <=? defaultTs p)); simpl;
      (split; [by intros [? ?]|intros [_ [?|?]]; done]).
  - split; [intros _; split; [done|by right]|by eexists].
Qed.

(** X6.  [updateTimeTick] registers no proxy and removes none, and leaves the
    barrier and the coordinator's id as they are, whatever the report. *)
Theorem updateTimeTick_frame t in_ :
  dom (proxyTimeTick (updateTimeTick t in_).1.1) = dom (proxyTimeTick t) ∧
  getProxyNum (updateTimeTick t in_).1.1 = getProxyNum t ∧
  ddlMinTs (updateTimeTick t in_).1.1 = ddlMinTs t ∧
  ddlTsSet (updateTimeTick t in_).1.1 = ddlTsSet t ∧
  sourceID (updateTimeTick t in_).1.1 = sourceID t.
Proof.
  assert (dom (proxyTimeTick (updateTimeTick t in_).1.1) = dom (proxyTimeTick t) ∧
          ddlMinTs (updateTimeTick t in_).1.1 = ddlMinTs t ∧
          ddlTsSet (updateTimeTick t in_).1.1 = ddlTsSet t ∧
          sourceID (updateTimeTick t in_).1.1 = sourceID t) as (Hdom & H1 & H2 & H3).
  { destruct (updateTimeTick t in_) as [[t' sent] o] eqn:Hupd. simpl.
    apply updateTimeTick_inv in Hupd.
    destruct Hupd as [(_ & -> & _)|(_ & _ & _ & prev & Hprev & Hs)]; [done|].
    pose proof (sendToChannel_dom (install t in_ prev)) as Hd.
    pose proof (sendToChannel_ddl (install t in_ prev)) as [Hm Hset].
    pose proof (sendToChannel_sourceID (install t in_ prev)) as Hid.
    rewrite Hs in Hd, Hm, Hset, Hid. simpl in *.
    split; [|done]. rewrite Hd, dom_insert_L.
    assert (SourceID in_ ∈ dom (proxyTimeTick t)) by (apply elem_of_dom; by eexists).
    set_solver. }
  split; [done|]. split; [|done].
  unfold getProxyNum. by rewrite <-!size_dom, Hdom.
Qed.

(** X7.  An accepted report is stored under its proxy with the count after
    the previous one.  When every other entry holds a report, the call sends
    the table with the new report in it and leaves every entry [nil];
    otherwise it sends nothing and the table keeps the new report. *)
Theorem updateTimeTick_round_ready t in_ prev :
  (updateTimeTick t in_).2 = Accepted →
  proxyTimeTick t !! SourceID in_ = Some prev →
  let m1 := <[SourceID in_ := Some (newChanTsMsg in_ (next_cnt prev))]>
              (proxyTimeTick t) in
  ((∀ q v, q ≠ SourceID in_ → proxyTimeTick t !! q = Some v → is_Some v) →
     (updateTimeTick t in_).1
     = (set_proxyTimeTick t ((λ _, None) <$> m1), Some m1)) ∧
  (¬ (∀ q v, q ≠ SourceID in_ → proxyTimeTick t !! q = Some v → is_Some v) →
     (updateTimeTick t in_).1 = (set_proxyTimeTick t m1, None)).
Proof.
  intros Hacc Hprev m1.
  destruct (updateTimeTick t in_) as [[t' sent] o] eqn:Hupd. simpl in *. subst o.
  apply updateTimeTick_inv in Hupd.
  destruct Hupd as [(Ho & _)|(_ & _ & _ & prev' & Hprev' & Hs)]; [done|].
  rewrite Hprev in Hprev'. injection Hprev' as <-.
  assert (complete (proxyTimeTick (install t in_ prev)) ↔
          ∀ q v, q ≠ SourceID in_ → proxyTimeTick t !! q = Some v → is_Some v) as Hiff.
  { simpl. fold m1. split.
    - intros [_ Hall] q v Hq Hv. apply (Hall q). subst m1.
      by rewrite lookup_insert_ne.
    - intros Hoth. split.
      + intros Hemp. apply (f_equal (λ m, m !! SourceID in_)) in Hemp.
        subst m1. by rewrite lookup_insert_eq, lookup_empty in Hemp.
      + intros q v. subst m1. rewrite lookup_insert. case_decide.
        * intros [= <-]. by eexists.
        * by apply Hoth. }
  rewrite <-Hs. split.
  - intros Hoth. apply Hiff in Hoth. by rewrite (sendToChannel_complete _ Hoth).
  - intros Hoth. rewrite sendToChannel_incomplete; [done|]. by rewrite Hiff.
Qed.

Lemma updateTimeTick_round_ready_witness :
  let t := addProxy (addProxy (newTimeTickSync 1) 1) 2 in
  let in_ := ChannelTimeTick 2 ["c0"%string] [150] 150 in
  (updateTimeTick t in_).2 = Accepted ∧
  proxyTimeTick t !! SourceID in_ = Some None ∧
  (updateTimeTick t in_).1
  = (set_proxyTimeTick t (<[2 := Some (newChanTsMsg in_ 1)]> (proxyTimeTick t)), None).
Proof.
  intros t in_.
  assert ((updateTimeTick t in_).2 = Accepted) as Hacc by (vm_compute; reflexivity).
  assert (proxyTimeTick t !! SourceID in_ = Some None) as Hprev
    by (vm_compute; reflexivity).
  split; [exact Hacc|]. split; [exact Hprev|].
  apply (proj2 (updateTimeTick_round_ready t in_ None Hacc Hprev)).
  intros Hoth. assert (1 ≠ SourceID in_) as Hne by (simpl; lia).
  destruct (Hoth 1 None Hne) as [? ?]; [vm_compute; reflexivity|discriminate].
Defined.

(** ** The conversion of a report *)

Lemma foldl_insert_snoc (l : list (string * Z)) (m : gmap string Z) p :
  foldl (λ m p, <[p.1 := p.2]> m) m (l ++ [p])
  = <[p.1 := p.2]> (foldl (λ m p, <[p.1 := p.2]> m) m l).
Proof. by rewrite foldl_app. Qed.

Lemma foldl_insert_notin (l : list (string * Z)) : ∀ (m : gmap string Z) c,
  c ∉ l.*1 → foldl (λ m p, <[p.1 := p.2]> m) m l !! c = m !! c.
Proof.
  induction l as [|[k v] l IH]; intros m c Hc; simpl; [done|].
  rewrite fmap_cons in Hc. apply not_elem_of_cons in Hc as [Hne Hc].
  rewrite IH by done. simpl in Hne. by rewrite lookup_insert_ne.
Qed.

Lemma foldl_insert_dom (l : list (string * Z)) : ∀ (m : gmap string Z),
  dom (foldl (λ m p, <[p.1 := p.2]> m) m l) = dom m ∪ list_to_set l.*1.
Proof.
  induction l as [|[k v] l IH]; intros m; simpl; [set_solver|].
  rewrite IH, dom_insert_L. set_solver.
Qed.

(** X8.  In the [chanTsMsg] built from a report whose two lists have the same
    length, the keys of [chanTs] are the channel names of the report;
    [getTimetick] gives a name the timestamp at the index of its last
    occurrence in [ChannelNames], and gives [DefaultTimestamp] to a channel
    the report does not name. *)
Theorem newChanTsMsg_getTimetick in_ n :
  length (Timestamps in_) = length (ChannelNames in_) →
  dom (chanTs (newChanTsMsg in_ n)) = list_to_set (ChannelNames in_) ∧
  defaultTs (newChanTsMsg in_ n) = DefaultTimestamp in_ ∧
  cnt (newChanTsMsg in_ n) = n ∧
  (∀ c, c ∉ ChannelNames in_ →
        getTimetick (newChanTsMsg in_ n) c = DefaultTimestamp in_) ∧
  (∀ i c ts, ChannelNames in_ !! i = Some c → Timestamps in_ !! i = Some ts →
             c ∉ drop (S i) (ChannelNames in_) →
             getTimetick (newChanTsMsg in_ n) c = ts).
Proof.
  intros Hlen. unfold getTimetick, newChanTsMsg. simpl.
  split; [|split; [done|split; [done|split]]].
  - rewrite foldl_insert_dom, dom_empty_L, fst_zip by lia. set_solver.
  - intros c Hc. rewrite foldl_insert_notin; [by rewrite lookup_empty|].
    rewrite fst_zip by lia. done.
  - intros i c ts Hc Hts Hlast.
    rewrite <-(take_drop_middle _ _ _ Hc), <-(take_drop_middle _ _ _ Hts).
    assert (length (take i (ChannelNames in_)) = length (take i (Timestamps in_))) as Htk.
    { rewrite !length_take. lia. }
    rewrite zip_with_app by done. simpl. rewrite foldl_app. simpl.
    rewrite foldl_insert_notin; [by rewrite lookup_insert_eq|].
    assert (length (drop (S i) (ChannelNames in_))
            = length (drop (S i) (Timestamps in_))) as Hdr.
    { rewrite !length_drop. lia. }
    rewrite fst_zip by lia. done.
Qed.

Lemma newChanTsMsg_getTimetick_witness :
  let in_ := ChannelTimeTick 2 ["a"; "b"; "a"]%string [10; 20; 30] 99 in
  length (Timestamps in_) = length (ChannelNames in_) ∧
  getTimetick (newChanTsMsg in_ 1) "a" = 30 ∧
  getTimetick (newChanTsMsg in_ 1) "z" = 99.
Proof.
  intros in_.
  assert (length (Timestamps in_) = length (ChannelNames in_)) as Hlen by reflexivity.
  pose proof (newChanTsMsg_getTimetick in_ 1 Hlen) as (_ & _ & _ & Hdef & Hidx).
  split; [exact Hlen|]. split.
  - apply (Hidx 2%nat); [reflexivity|reflexivity|]. simpl. apply not_elem_of_nil.
  - apply Hdef. simpl. intros Hin.
    repeat (apply elem_of_cons in Hin as [Hin|Hin]; [discriminate|]).
    by apply elem_of_nil in Hin.
Defined.

(** ** Membership *)

Lemma clearProxy_lookup ids : ∀ (m : gmap Z (option chanTsMsg)) id,
  foldl (λ m id, <[id := None]> m) m ids !! id
  = if decide (id ∈ ids) then Some None else m !! id.
Proof.
  induction ids as [|k ids IH]; intros m id; cbn [foldl].
  - rewrite decide_False; [done|apply not_elem_of_nil].
  - rewrite IH. destruct (decide (id ∈ ids)) as [Hin|Hin].
    + rewrite decide_True; [done|by apply list_elem_of_further].
    + rewrite lookup_insert. case_decide as Hk.
      * subst k. rewrite decide_True; [done|apply list_elem_of_here].
      * rewrite decide_False; [done|]. intros [?|?]%elem_of_cons; done.
Qed.

(** X9.  [delProxy] of an id that is not registered changes nothing and
    sends nothing.  [delProxy] of a registered id removes this key only; when
    the table that remains is not empty and holds a report for every proxy,
    the call sends it as a snapshot, without the removed proxy's report, and
    leaves every entry [nil]; otherwise it sends nothing. *)
Theorem delProxy_spec t id :
  (proxyTimeTick t !! id = None → delProxy t id = (t, None)) ∧
  (is_Some (proxyTimeTick t !! id) →
     dom (proxyTimeTick (delProxy t id).1) = dom (proxyTimeTick t) ∖ {[ id ]} ∧
     (complete (delete id (proxyTimeTick t)) →
        delProxy t id
        = (set_proxyTimeTick t ((λ _, None) <$> delete id (proxyTimeTick t)),
           Some (delete id (proxyTimeTick t)))) ∧
     (¬ complete (delete id (proxyTimeTick t)) →
        delProxy t id = (set_proxyTimeTick t (delete id (proxyTimeTick t)), None))).
Proof.
  unfold delProxy. split.
  - by intros ->.
  - intros [v ->].
    split; [by rewrite sendToChannel_dom; simpl; rewrite dom_delete_L|].
    split.
    + intros Hc. by rewrite sendToChannel_complete.
    + intros Hc. by rewrite sendToChannel_incomplete.
Qed.

(** X10.  [clearProxy] stores [nil] under every listed id, registering the
    ids that were not in the table, and leaves the other entries as they
    are; clearing the same ids again changes nothing. *)
Theorem clearProxy_spec t ids :
  (∀ id, proxyTimeTick (clearProxy t ids) !! id
         = if decide (id ∈ ids) then Some None else proxyTimeTick t !! id) ∧
  dom (proxyTimeTick (clearProxy t ids)) = dom (proxyTimeTick t) ∪ list_to_set ids ∧
  clearProxy (clearProxy t ids) ids = clearProxy t ids ∧
  clearProxy t ids = foldl addProxy t ids.
Proof.
  assert (∀ id, proxyTimeTick (clearProxy t ids) !! id
                = if decide (id ∈ ids) then Some None else proxyTimeTick t !! id) as Hl.
  { intros id. unfold clearProxy. simpl. apply clearProxy_lookup. }
  split; [done|]. split; [|split].
  - apply set_eq. intros id. rewrite elem_of_union, !elem_of_dom, Hl, elem_of_list_to_set.
    case_decide; [split; [by right|by eexists]|]. split; [by left|by intros [?|?]].
  - unfold clearProxy at 1. unfold set_proxyTimeTick. simpl.
    destruct t as [src tbl m X]. unfold clearProxy, set_proxyTimeTick. simpl. f_equal.
    apply map_eq. intros id. rewrite !clearProxy_lookup. by case_decide.
  - clear Hl. revert t. induction ids as [|k ids IH]; intros t; simpl.
    + by destruct t.
    + rewrite <-IH. by destruct t.
Qed.

(** X11.  Registering a proxy that was not in the table and removing it
    again amounts to one call of [sendToChannel] on the table as it was: the
    table is restored and nothing is sent unless it already held a complete
    round. *)
Theorem addProxy_delProxy t id :
  proxyTimeTick t !! id = None →
  delProxy (addProxy t id) id = sendToChannel t ∧
  (¬ complete (proxyTimeTick t) → delProxy (addProxy t id) id = (t, None)).
Proof.
  intros Hid.
  assert (delProxy (addProxy t id) id = sendToChannel t) as Heq.
  { unfold delProxy, addProxy. simpl. rewrite lookup_insert_eq.
    rewrite delete_insert_id by done. by destruct t. }
  split; [done|]. intros Hc. rewrite Heq. by apply sendToChannel_incomplete.
Qed.

Lemma addProxy_delProxy_witness :
  let t := addProxy (newTimeTickSync 1) 1 in
  proxyTimeTick t !! 2 = None ∧ delProxy (addProxy t 2) 2 = (t, None).
Proof.
  intros t.
  assert (proxyTimeTick t !! 2 = None) as Hid by (vm_compute; reflexivity).
  split; [exact Hid|].
  apply (proj2 (addProxy_delProxy t 2 Hid)).
  intros [_ Hall]. destruct (Hall 1 None) as [? ?]; [vm_compute; reflexivity|discriminate].
Defined.

(** ** Invariants of a run *)

Lemma not_complete_nil_entry (m : gmap Z (option chanTsMsg)) id :
  m !! id = Some None → ¬ complete m.
Proof. intros Hid [_ Hall]. by destruct (Hall _ _ Hid). Qed.

Lemma sendToChannel_not_complete t : ¬ complete (proxyTimeTick (sendToChannel t).1).
Proof.
  destruct (sendToChannel_cases t) as [[[Hne _] ->]|[Hc ->]]; simpl; [|done].
  destruct (map_choose _ Hne) as (id & v & Hid).
  apply (not_complete_nil_entry _ id). by rewrite lookup_fmap, Hid.
Qed.

Lemma step_not_complete t e :
  ¬ complete (proxyTimeTick t) → ¬ complete (proxyTimeTick (step t e).1).
Proof.
  intros Hc. rewrite step_mutate.
  destruct (mutate t e).2 eqn:Hb; simpl; [apply sendToChannel_not_complete|].
  destruct e as [ts|ts|in_|id|id|ids]; simpl in *.
  - done.
  - unfold removeDdlTimeTick. by repeat case_decide.
  - by destruct (updateTimeTick t in_).2.
  - apply (not_complete_nil_entry _ id). apply lookup_insert_eq.
  - by destruct (proxyTimeTick t !! id).
  - destruct ids as [|k ids]; [done|].
    apply (not_complete_nil_entry _ k). rewrite clearProxy_lookup.
    rewrite decide_True; [done|apply list_elem_of_here].
Qed.

(** X12.  A complete round never stays in the table: if the table is not
    complete (empty, or with a [nil] entry) before a sequence of calls, it is
    not complete after it.  This holds in particular of every state reached
    from [newTimeTickSync]. *)
Theorem table_never_complete t evs :
  ¬ complete (proxyTimeTick t) →
  ¬ complete (proxyTimeTick (after t evs)) ∧
  (∀ src, ¬ complete (proxyTimeTick (after (newTimeTickSync src) evs))).
Proof.
  assert (∀ evs t, ¬ complete (proxyTimeTick t) →
                   ¬ complete (proxyTimeTick (after t evs))) as Hgen.
  { clear. induction evs as [|e evs' IH]; intros t Hc; [done|].
    unfold after. simpl. apply IH. by apply step_not_complete. }
  intros Hc. split; [by apply Hgen|].
  intros src. apply Hgen. simpl. by intros [? _].
Qed.

Lemma table_never_complete_witness :
  let t := addProxy (addProxy (newTimeTickSync 1) 1) 2 in
  let evs := [EvUpdate (ChannelTimeTick 1 ["c0"%string] [200] 200);
              EvUpdate (ChannelTimeTick 2 ["c0"%string] [150] 150)] in
  ¬ complete (proxyTimeTick t) ∧ ¬ complete (proxyTimeTick (after t evs)).
Proof.
  intros t evs.
  assert (¬ complete (proxyTimeTick t)) as Hc.
  { apply (not_complete_nil_entry _ 1). vm_compute. reflexivity. }
  split; [exact Hc|]. exact (proj1 (table_never_complete t evs Hc)).
Defined.

Lemma mutate_keeps_registered t e p :
  p ∈ dom (proxyTimeTick t) → e ≠ EvDelProxy p →
  p ∈ dom (proxyTimeTick (mutate t e).1).
Proof.
  intros Hp Hne. destruct e as [ts|ts|in_|id|id|ids]; simpl.
  - done.
  - unfold removeDdlTimeTick. by repeat case_decide.
  - destruct (updateTimeTick t in_).2; try done. simpl.
    rewrite dom_insert_L. set_solver.
  - rewrite dom_insert_L. set_solver.
  - destruct (proxyTimeTick t !! id); [|done]. simpl.
    rewrite dom_delete_L. apply elem_of_difference. split; [done|].
    intros ->%elem_of_singleton. done.
  - apply elem_of_dom. rewrite clearProxy_lookup. case_decide; [by eexists|].
    by apply elem_of_dom.
Qed.

(** X13.  Every snapshot sent in a run is a complete round: it is not empty
    and holds a report for each of its proxies.  If the coordinator is
    registered at the start and no call removes it, every snapshot carries
    the coordinator's report and the iteration of [startWatch] on it does not
    fault. *)
Theorem run_snapshots_complete t evs S :
  S ∈ run t evs →
  complete S ∧
  (sourceID t ∈ dom (proxyTimeTick t) → EvDelProxy (sourceID t) ∉ evs →
     (∃ local, S !! sourceID t = Some (Some local)) ∧
     startWatch_iter t S ≠ IterPanic).
Proof.
  revert t. induction evs as [|e evs IH]; intros t; simpl.
  { by intros ?%elem_of_nil. }
  pose proof (step_sourceID t e) as Hid.
  intros [Hin|Hin]%elem_of_app.
  - destruct (step t e) as [t' [S'|]] eqn:Hstep; simpl in Hin;
      [|by apply elem_of_nil in Hin].
    apply list_elem_of_singleton in Hin. subst S'.
    apply step_sent in Hstep. destruct Hstep as (_ & HS & [Hne Hall] & _).
    split; [done|]. intros Hreg Hdel.
    assert (sourceID t ∈ dom S) as Hdom.
    { rewrite HS. apply mutate_keeps_registered; [done|].
      intros ->. apply Hdel, list_elem_of_here. }
    apply elem_of_dom in Hdom as [v Hv]. destruct (Hall _ _ Hv) as [local ->].
    split; [by exists local|].
    apply startWatch_iter_no_panic; [done|]. unfold localChanTs. rewrite Hv. by eexists.
  - destruct (IH _ Hin) as [Hc Hsafe]. split; [done|]. intros Hreg Hdel.
    rewrite Hid in Hsafe. rewrite <-(startWatch_iter_ext t (step t e).1 S Hid).
    apply Hsafe.
    + rewrite step_dom. apply mutate_keeps_registered; [done|].
      intros ->. apply Hdel, list_elem_of_here.
    + intros Hd. by apply Hdel, list_elem_of_further.
Qed.

Lemma run_snapshots_complete_witness :
  let t := addProxy (addProxy (newTimeTickSync 1) 1) 2 in
  let in1 := ChannelTimeTick 1 ["c0"%string] [200] 200 in
  let in2 := ChannelTimeTick 2 ["c0"%string] [150] 150 in
  let S : gmap Z (option chanTsMsg) :=
    {[ 1 := Some (newChanTsMsg in1 1); 2 := Some (newChanTsMsg in2 1) ]} in
  S ∈ run t [EvUpdate in1; EvUpdate in2] ∧ complete S.
Proof.
  intros t in1 in2 S.
  assert (S ∈ run t [EvUpdate in1; EvUpdate in2]) as Hin.
  { assert (run t [EvUpdate in1; EvUpdate in2] = [S]) as -> by (vm_compute; reflexivity).
    apply list_elem_of_here. }
  split; [exact Hin|]. exact (proj1 (run_snapshots_complete t _ S Hin)).
Defined.

(** ** One iteration of the dispatcher *)

(** X14.  On a snapshot that holds a report for every proxy, the
    coordinator's [local] among them, the iteration is skipped when
    [local.chanTs] is empty; otherwise it broadcasts on exactly the channels
    that [local.chanTs] names, and the timestamp sent on a channel is the
    least [getTimetick] of that channel over the reports of the snapshot: it
    is below every one of them, equal to one of them, and never above the
    coordinator's own timestamp for the channel. *)
Theorem startWatch_iter_complete t (S : gmap Z (option chanTsMsg)) local :
  S !! sourceID t = Some (Some local) → all_reported S →
  (chanTs local = ∅ → startWatch_iter t S = IterSkip) ∧
  (chanTs local ≠ ∅ →
     ∃ hb, startWatch_iter t S = IterSend hb ∧
           dom hb = dom (chanTs local) ∧
           ∀ c h, hb !! c = Some h →
                  (∃ ts, chanTs local !! c = Some ts ∧ h ≤ ts) ∧
                  (∀ p r, S !! p = Some (Some r) → h ≤ getTimetick r c) ∧
                  (∃ p r, S !! p = Some (Some r) ∧ h = getTimetick r c)).
Proof.
  intros Hlocal Hall. unfold startWatch_iter, localChanTs. rewrite Hlocal.
  split.
  - intros ->. by rewrite decide_True by apply map_size_empty.
  - intros Hne. rewrite decide_False by (by rewrite map_size_empty_iff).
    rewrite decide_True; [|intros c ts _; by apply reduceChannel_spec].
    eexists. split; [done|]. split.
    + apply set_eq. intros c. rewrite !elem_of_dom, map_lookup_imap.
      destruct (chanTs local !! c) as [ts|]; simpl.
      * split; [by eexists|]. intros _. by apply reduceChannel_spec.
      * split; by intros [? ?].
    + intros c h. rewrite map_lookup_imap.
      destruct (chanTs local !! c) as [ts|] eqn:Hts; simpl; [|done].
      intros Hred.
      destruct (reduceChannel_spec S c ts) as [_ Hspec].
      destruct (Hspec h Hred) as (Hle & Hlb & Hat).
      split; [by exists ts|]. split; [done|].
      destruct Hat as [->|Hat]; [|done].
      exists (sourceID t), local. split; [done|].
      unfold getTimetick. by rewrite Hts.
Qed.

Lemma startWatch_iter_complete_witness :
  let t := newTimeTickSync 1 in
  let local := ChanTsMsg {[ "c0"%string := 200 ]} 200 1 in
  let other := ChanTsMsg ∅ 150 1 in
  let S : gmap Z (option chanTsMsg) := {[ 1 := Some local; 2 := Some other ]} in
  S !! sourceID t = Some (Some local) ∧ all_reported S ∧
  startWatch_iter t S = IterSend {[ "c0"%string := 150 ]} ∧
  ∃ hb, startWatch_iter t S = IterSend hb ∧ dom hb = dom (chanTs local).
Proof.
  intros t local other S.
  assert (S !! sourceID t = Some (Some local)) as Hl by (vm_compute; reflexivity).
  assert (all_reported S) as Hall.
  { unfold all_reported, S. apply map_Forall_insert_2; [by eexists|].
    apply map_Forall_singleton. by eexists. }
  split; [exact Hl|]. split; [exact Hall|]. split; [vm_compute; reflexivity|].
  destruct (proj2 (startWatch_iter_complete t S local Hl Hall)) as (hb & Hhb & Hdom & _).
  { intros Hemp. apply (f_equal (λ m, m !! "c0"%string)) in Hemp.
    vm_compute in Hemp. discriminate. }
  by exists hb.
Defined.

(** X15.  The iteration faults in two cases only: the snapshot has no report
    under the coordinator's id, or the coordinator names at least one channel
    and some entry of the snapshot is [nil]. *)
Theorem startWatch_iter_panic_iff t (S : gmap Z (option chanTsMsg)) :
  startWatch_iter t S = IterPanic ↔
  localChanTs t S = None ∨
  (∃ local_chanTs, localChanTs t S = Some local_chanTs ∧
                   local_chanTs ≠ ∅ ∧ ¬ all_reported S).
Proof.
  unfold startWatch_iter.
  destruct (localChanTs t S) as [lc|]; [|split; [by left|done]].
  destruct (decide (size lc = 0%nat)) as [Hsz|Hsz].
  { apply map_size_empty_iff in Hsz. split; [done|].
    intros [?|(lc' & [= <-] & Hne & _)]; done. }
  assert (lc ≠ ∅) as Hne by (by rewrite <-map_size_empty_iff).
  destruct (decide (map_Forall _ lc)) as [Hall|Hall].
  - split; [done|]. intros [?|(lc' & [= <-] & _ & Hnot)]; [done|].
    exfalso. apply Hnot.
    destruct (map_choose _ Hne) as (c & ts & Hc).
    apply (reduceChannel_spec S c ts). by apply (Hall c ts).
  - split; [|done]. intros _. right. exists lc. split; [done|]. split; [done|].
    intros Hrep. apply Hall. intros c ts _. by apply reduceChannel_spec.
Qed.

(** ** [minTimeTick] *)

Lemma minTimeTick_acc (l : list Z) : ∀ a,
  0 < a → Forall (λ x, 0 < x) l →
  let r := foldl (λ ret t, if decide (ret = 0) then t else if t <? ret then t else ret) a l in
  0 < r ∧ r ≤ a ∧ (∀ x, x ∈ l → r ≤ x) ∧ (r = a ∨ r ∈ l).
Proof.
  induction l as [|x l IH]; intros a Ha Hl; simpl.
  { split; [done|]. split; [lia|]. split; [by intros ? ?%elem_of_nil|by left]. }
  apply Forall_cons in Hl as [Hx Hl].
  rewrite decide_False by lia.
  destruct (Z.ltb_spec x a) as [Hlt|Hge].
  - destruct (IH x Hx Hl) as (Hr & Hle & Hlb & Hat).
    split; [done|]. split; [lia|]. split.
    + intros y [->|Hy]%elem_of_cons; [done|by apply Hlb].
    + right. destruct Hat as [->|Hat]; [apply list_elem_of_here|by apply list_elem_of_further].
  - destruct (IH a Ha Hl) as (Hr & Hle & Hlb & Hat).
    split; [done|]. split; [done|]. split.
    + intros y [->|Hy]%elem_of_cons; [lia|by apply Hlb].
    + destruct Hat as [->|Hat]; [by left|right; by apply list_elem_of_further].
Qed.

(** X16.  On at least one argument, all of them uint64 values other than 0,
    [minTimeTick] returns their minimum: one of the arguments, below every
    argument, and not 0, the value it returns on no argument. *)
Theorem minTimeTick_min tt :
  tt ≠ [] → Forall (λ x, 0 < x) tt →
  minTimeTick tt ∈ tt ∧ (∀ x, x ∈ tt → minTimeTick tt ≤ x) ∧
  minTimeTick tt ≠ minTimeTick [].
Proof.
  intros Hne Hpos.
  cut (minTimeTick tt ∈ tt ∧ (∀ x, x ∈ tt → minTimeTick tt ≤ x)).
  { intros [Hin Hlb]. split; [done|]. split; [done|].
    rewrite Forall_forall in Hpos. specialize (Hpos _ Hin).
    unfold minTimeTick at 2. simpl. lia. }
  destruct tt as [|x l]; [done|].
  apply Forall_cons in Hpos as [Hx Hl].
  unfold minTimeTick. simpl.
  destruct (minTimeTick_acc l x Hx Hl) as (_ & Hle & Hlb & Hat). split.
  - destruct Hat as [->|Hat]; [apply list_elem_of_here|by apply list_elem_of_further].
  - intros y [->|Hy]%elem_of_cons; [done|by apply Hlb].
Qed.

Lemma minTimeTick_min_witness :
  [30; 10; 20] ≠ [] ∧ Forall (λ x, 0 < x) [30; 10; 20] ∧
  minTimeTick [30; 10; 20] ∈ [30; 10; 20] ∧
  ∀ x, x ∈ [30; 10; 20] → minTimeTick [30; 10; 20] ≤ x.
Proof.
  assert ([30; 10; 20] ≠ []) as Hne by discriminate.
  assert (Forall (λ x, 0 < x) [30; 10; 20]) as Hpos by (repeat constructor; lia).
  pose proof (minTimeTick_min [30; 10; 20] Hne Hpos) as (Hin & Hlb & _).
  split; [exact Hne|]. split; [exact Hpos|]. split; [exact Hin|exact Hlb].
Defined.

Lemma minTimeTick_nonneg (l : list Z) : ∀ a,
  0 ≤ a → Forall (λ x, 0 ≤ x) l →
  0 ≤ foldl (λ ret t, if decide (ret = 0) then t else if t <? ret then t else ret) a l.
Proof.
  induction l as [|x l IH]; intros a Ha Hl; simpl; [done|].
  apply Forall_cons in Hl as [Hx Hl]. apply IH; [|done].
  case_decide; [done|]. destruct (Z.ltb_spec x a); lia.
Qed.

(** X17.  A 0 among the arguments makes [minTimeTick] start again: on
    arguments of type uint64 the result is that of the arguments after the
    last 0, so a timestamp before a 0 is forgotten even when it is the
    smallest. *)
Theorem minTimeTick_zero_restarts l r :
  Forall (λ x, 0 ≤ x) l → minTimeTick (l ++ 0 :: r) = minTimeTick r.
Proof.
  intros Hl. unfold minTimeTick. rewrite foldl_app. simpl.
  pose proof (minTimeTick_nonneg l 0 (Z.le_refl 0) Hl) as Hge.
  set (a := foldl _ 0 l) in *.
  assert ((if decide (a = 0) then 0 else if 0 <? a then 0 else a) = 0) as ->; [|done].
  case_decide; [done|]. destruct (Z.ltb_spec 0 a); lia.
Qed.

Lemma minTimeTick_zero_restarts_witness :
  Forall (λ x, 0 ≤ x) [5] ∧ minTimeTick ([5] ++ 0 :: [7]) = 7.
Proof.
  assert (Forall (λ x, 0 ≤ x) [5]) as Hl by (repeat constructor; lia).
  split; [exact Hl|].
  exact (minTimeTick_zero_restarts [5] [7] Hl).
Defined.

(** ** The warning about idle proxies *)

Lemma idleProxyList_elem (m : gmap Z (option chanTsMsg)) id :
  id ∈ idleProxyList m ↔ m !! id = Some None.
Proof.
  unfold idleProxyList.
  apply (map_fold_weak_ind (λ (r : list Z) (m : gmap Z (option chanTsMsg)),
                              id ∈ r ↔ m !! id = Some None)).
  - rewrite lookup_empty. split; [by intros ?%elem_of_nil|done].
  - intros i x m' r Hi IH. rewrite lookup_insert. destruct x as [c|].
    + rewrite IH. case_decide as Hid; [|done]. subst i. rewrite Hi. split; done.
    + rewrite elem_of_app, list_elem_of_singleton, IH. case_decide as Hid.
      * subst i. split; [done|by right].
      * split; [intros [?|?]; done|by left].
Qed.

Lemma maxCnt_spec (m : gmap Z (option chanTsMsg)) :
  0 ≤ maxCnt m ∧
  (∀ id c, m !! id = Some (Some c) → cnt c ≤ maxCnt m) ∧
  (maxCnt m = 0 ∨ ∃ id c, m !! id = Some (Some c) ∧ maxCnt m = cnt c).
Proof.
  unfold maxCnt.
  apply (map_fold_weak_ind (λ (r : Z) (m : gmap Z (option chanTsMsg)),
    0 ≤ r ∧ (∀ id c, m !! id = Some (Some c) → cnt c ≤ r) ∧
    (r = 0 ∨ ∃ id c, m !! id = Some (Some c) ∧ r = cnt c))).
  - split; [done|]. split; [|by left]. intros id c. by rewrite lookup_empty.
  - intros i x m' r Hi (Hr & Hub & Hat). destruct x as [c|].
    + destruct (Z.ltb_spec r (cnt c)) as [Hlt|Hge].
      * split; [lia|]. split.
        -- intros id c'. rewrite lookup_insert. case_decide.
           ++ intros [= <-]. lia.
           ++ intros Hc'. specialize (Hub _ _ Hc'). lia.
        -- right. exists i, c. by rewrite lookup_insert_eq.
      * split; [done|]. split.
        -- intros id c'. rewrite lookup_insert. case_decide.
           ++ intros [= <-]. lia.
           ++ apply Hub.
        -- destruct Hat as [->|(id & c' & Hc' & ->)]; [by left|].
           right. exists id, c'. split; [|done].
           rewrite lookup_insert_ne; [done|]. intros <-. by rewrite Hi in Hc'.
    + split; [done|]. split.
      * intros id c'. rewrite lookup_insert. case_decide; [done|apply Hub].
      * destruct Hat as [->|(id & c' & Hc' & ->)]; [by left|].
        right. exists id, c'. split; [|done].
        rewrite lookup_insert_ne; [done|]. intros <-. by rewrite Hi in Hc'.
Qed.

(** X18.  [sendToChannel] warns about idle proxies exactly when some entry is
    [nil] and the largest [cnt] of the stored reports, 0 when there is none,
    is a multiple of 10.  The warning lists exactly the ids whose entry is
    [nil], and a call that warns sends nothing.  A table that is not empty
    and whose entries are all [nil] always warns. *)
Theorem idleWarning_spec t :
  (is_Some (idleWarning (proxyTimeTick t)) ↔
     (∃ id, proxyTimeTick t !! id = Some None) ∧
     Z.rem (maxCnt (proxyTimeTick t)) 10 = 0) ∧
  (∀ l id, idleWarning (proxyTimeTick t) = Some l →
           (id ∈ l ↔ proxyTimeTick t !! id = Some None)) ∧
  (is_Some (idleWarning (proxyTimeTick t)) → sendToChannel t = (t, None)) ∧
  (proxyTimeTick t ≠ ∅ → all_nil (proxyTimeTick t) →
     is_Some (idleWarning (proxyTimeTick t))).
Proof.
  assert (idleProxyList (proxyTimeTick t) ≠ [] ↔
          ∃ id, proxyTimeTick t !! id = Some None) as Hidle.
  { split.
    - intros Hne. destruct (idleProxyList (proxyTimeTick t)) as [|id l] eqn:Hl; [done|].
      exists id. apply idleProxyList_elem. rewrite Hl. apply list_elem_of_here.
    - intros [id Hid] Hnil. apply idleProxyList_elem in Hid.
      rewrite Hnil in Hid. by apply elem_of_nil in Hid. }
  assert (is_Some (idleWarning (proxyTimeTick t)) ↔
          (∃ id, proxyTimeTick t !! id = Some None) ∧
          Z.rem (maxCnt (proxyTimeTick t)) 10 = 0) as Hiff.
  { unfold idleWarning. rewrite <-Hidle.
    destruct (decide (idleProxyList (proxyTimeTick t) = [])) as [Hl|Hl].
    - split; [by intros [? ?]|by intros [? _]].
    - destruct (decide (Z.rem (maxCnt (proxyTimeTick t)) 10 = 0)).
      + split; [done|by eexists].
      + split; [by intros [? ?]|by intros [_ ?]]. }
  split; [done|]. split; [|split].
  - intros l id. unfold idleWarning. repeat case_decide; try done.
    intros [= <-]. apply idleProxyList_elem.
  - intros [[id Hid] _]%Hiff. apply sendToChannel_incomplete.
    by apply (not_complete_nil_entry _ id).
  - intros Hne Hnil. apply Hiff.
    destruct (map_choose _ Hne) as (id & v & Hid).
    pose proof (Hnil _ _ Hid) as Hv. simpl in Hv. subst v.
    split; [by exists id|].
    destruct (maxCnt_spec (proxyTimeTick t)) as (_ & _ & [->|(k & c & Hc & _)]); [done|].
    by specialize (Hnil _ _ Hc).
Qed.

(** ** Successive reports of one proxy *)

Lemma int64_succ_small x :
  -9223372036854775808 ≤ x + 1 < 9223372036854775808 → int64_succ x = x + 1.
Proof.
  intros Hx. unfold int64_succ. rewrite Z.mod_small; lia.
Qed.

Lemma updateTimeTick_accept_other t in_ prev :
  well_shaped in_ → proxyTimeTick t !! SourceID in_ = Some prev →
  DefaultTimestamp in_ ≤ getDdlMinTimeTick t → SourceID in_ ≠ sourceID t →
  updateTimeTick t in_ = (sendToChannel (install t in_ prev), Accepted).
Proof.
  intros [Hne Hlen] Hprev Hddl Hsrc. unfold updateTimeTick.
  rewrite decide_False by done. rewrite decide_False by (by intros ?).
  rewrite Hprev.
  destruct (Z.ltb_spec (getDdlMinTimeTick t) (DefaultTimestamp in_)); [lia|].
  rewrite bool_decide_eq_false_2 by done. by destruct prev.
Qed.

Lemma ticks_count p q ins : ∀ t prev,
  p ≠ q → p ≠ sourceID t →
  proxyTimeTick t !! p = Some prev → proxyTimeTick t !! q = Some None →
  Forall (λ in_, SourceID in_ = p ∧ well_shaped in_ ∧
                 DefaultTimestamp in_ ≤ getDdlMinTimeTick t) ins →
  0 ≤ count_of prev → count_of prev + Z.of_nat (length ins) < 9223372036854775808 →
  (∀ k, k ≠ p → proxyTimeTick (ticks t ins) !! k = proxyTimeTick t !! k) ∧
  ∃ prev', proxyTimeTick (ticks t ins) !! p = Some prev' ∧
           count_of prev' = count_of prev + Z.of_nat (length ins) ∧
           (ins ≠ [] → is_Some prev').
Proof.
  induction ins as [|in_ ins IH]; intros t prev Hpq Hsrc Hp Hq Hall H0 Hbound.
  { simpl. split; [done|]. exists prev. split; [done|]. split; [lia|done]. }
  apply Forall_cons in Hall as [(Hfrom & Hshape & Hddl) Hall].
  rewrite length_cons, Nat2Z.inj_succ in Hbound.
  assert (updateTimeTick t in_ = (install t in_ prev, None, Accepted)) as Hupd.
  { rewrite (updateTimeTick_accept_other t in_ prev); [|done|by rewrite Hfrom| |by rewrite Hfrom];
      [|done].
    rewrite sendToChannel_incomplete; [done|].
    apply (not_complete_nil_entry _ q). simpl.
    rewrite lookup_insert_ne; [done|]. by rewrite Hfrom. }
  unfold ticks in *. cbn [foldl]. rewrite Hupd. cbn [fst].
  destruct (IH (install t in_ prev) (Some (newChanTsMsg in_ (next_cnt prev))))
    as (Hoth & prev' & Hp' & Hcnt & _); try done.
  - simpl. rewrite Hfrom. apply lookup_insert_eq.
  - simpl. rewrite lookup_insert_ne; [done|]. by rewrite Hfrom.
  - cbn [count_of cnt newChanTsMsg].
    destruct prev as [r|]; cbn [next_cnt count_of] in *; [|lia].
    rewrite int64_succ_small; lia.
  - cbn [count_of cnt newChanTsMsg].
    destruct prev as [r|]; cbn [next_cnt count_of] in *; [|lia].
    rewrite int64_succ_small; lia.
  - split.
    + intros k Hk. rewrite Hoth by done. simpl.
      rewrite lookup_insert_ne; [done|]. by rewrite Hfrom.
    + exists prev'. split; [done|]. split.
      * rewrite Hcnt, length_cons, Nat2Z.inj_succ. cbn [count_of cnt newChanTsMsg].
        destruct prev as [r|]; cbn [next_cnt count_of] in *; [|lia].
        rewrite int64_succ_small; lia.
      * intros _. destruct prev' as [r'|]; [by eexists|].
        cbn [count_of cnt newChanTsMsg] in Hcnt.
        destruct prev as [r|]; cbn [next_cnt count_of] in *;
          [rewrite int64_succ_small in Hcnt|]; lia.
Qed.

(** X19.  While another proxy is idle, the reports of a proxy other than the
    coordinator that pass the shape and barrier checks are all accepted, each
    replacing the one before, and none completes a round.  After [n] of them
    (0 < n < 2^63), starting from a [nil] entry, the stored report has
    [cnt = n] and no other entry has changed.  If every other entry is [nil],
    the idle warning is issued after the [n]-th report exactly when [n] is a
    multiple of 10. *)
Theorem ticks_count_and_warning t p q ins :
  p ≠ q → p ≠ sourceID t →
  proxyTimeTick t !! p = Some None → proxyTimeTick t !! q = Some None →
  Forall (λ in_, SourceID in_ = p ∧ well_shaped in_ ∧
                 DefaultTimestamp in_ ≤ getDdlMinTimeTick t) ins →
  ins ≠ [] →
  Z.of_nat (length ins) < 9223372036854775808 →
  (∀ k, k ≠ p → proxyTimeTick (ticks t ins) !! k = proxyTimeTick t !! k) ∧
  (∃ r, proxyTimeTick (ticks t ins) !! p = Some (Some r) ∧
        cnt r = Z.of_nat (length ins)) ∧
  (all_nil (proxyTimeTick t) →
     (is_Some (idleWarning (proxyTimeTick (ticks t ins))) ↔
      Z.of_nat (length ins) `mod` 10 = 0)).
Proof.
  intros Hpq Hsrc Hp Hq Hall Hne Hbound.
  destruct (ticks_count p q ins t None Hpq Hsrc Hp Hq Hall)
    as (Hoth & prev' & Hp' & Hcnt & Hsome); [done|simpl; lia|].
  destruct (Hsome Hne) as [r ->]. simpl in Hcnt.
  split; [done|]. split; [by exists r|].
  intros Hnil.
  assert (maxCnt (proxyTimeTick (ticks t ins)) = Z.of_nat (length ins)) as Hmax.
  { destruct (maxCnt_spec (proxyTimeTick (ticks t ins))) as (_ & Hub & Hat).
    specialize (Hub _ _ Hp').
    assert (0 < Z.of_nat (length ins)) by (destruct ins; [done|simpl; lia]).
    destruct Hat as [H0|(k & c & Hc & Hk)]; [lia|].
    destruct (decide (k = p)) as [->|Hk'].
    - rewrite Hp' in Hc. injection Hc as <-. lia.
    - rewrite Hoth in Hc by done. by specialize (Hnil _ _ Hc). }
  unfold idleWarning. rewrite Hmax.
  rewrite Z.rem_mod_nonneg by lia.
  rewrite decide_False.
  - destruct (decide (Z.of_nat (length ins) `mod` 10 = 0)).
    + split; [done|by eexists].
    + split; [by intros [? ?]|done].
  - intros Hl. assert (q ∈ idleProxyList (proxyTimeTick (ticks t ins))) as Hin.
    { apply idleProxyList_elem. rewrite Hoth by done. done. }
    rewrite Hl in Hin. by apply elem_of_nil in Hin.
Qed.

Lemma ticks_count_and_warning_witness :
  let t := addProxy (addProxy (newTimeTickSync 1) 1) 2 in
  let ins := replicate 10 (ChannelTimeTick 2 ["c0"%string] [7] 7) in
  ins ≠ [] ∧
  (∃ r, proxyTimeTick (ticks t ins) !! 2 = Some (Some r) ∧ cnt r = 10) ∧
  is_Some (idleWarning (proxyTimeTick (ticks t ins))).
Proof.
  intros t ins.
  assert (2 ≠ 1) as Hpq by lia.
  assert (2 ≠ sourceID t) as Hsrc by (simpl; lia).
  assert (proxyTimeTick t !! 2 = Some None) as Hp by (vm_compute; reflexivity).
  assert (proxyTimeTick t !! 1 = Some None) as Hq by (vm_compute; reflexivity).
  assert (Forall (λ in_, SourceID in_ = 2 ∧ well_shaped in_ ∧
                         DefaultTimestamp in_ ≤ getDdlMinTimeTick t) ins) as Hall.
  { apply Forall_replicate. split; [done|]. split.
    - split; simpl; [intros [? ?]; discriminate|reflexivity].
    - vm_compute. discriminate. }
  assert (ins ≠ []) as Hne by discriminate.
  assert (Z.of_nat (length ins) < 9223372036854775808) as Hb by (simpl; lia).
  assert (all_nil (proxyTimeTick t)) as Hnil.
  { do 2 apply all_nil_addProxy. apply all_nil_empty. }
  pose proof (ticks_count_and_warning t 2 1 ins Hpq Hsrc Hp Hq Hall Hne Hb)
    as (_ & Hr & Hw).
  split; [exact Hne|]. split; [exact Hr|].
  apply (Hw Hnil). reflexivity.
Defined.

(** ** The barrier and the reports *)

(** X20.  A report held back by one outstanding DDL timestamp only is
    released by its removal: if [ts] is outstanding and below the report's
    [DefaultTimestamp] while every other outstanding timestamp is not, the
    report is [Blocked] before [removeDdlTimeTick ts] and is not [Blocked]
    after it. *)
Theorem removeDdlTimeTick_releases t ts in_ :
  ddl_inv t → well_shaped in_ → is_Some (proxyTimeTick t !! SourceID in_) →
  is_uint64 (DefaultTimestamp in_) →
  ts ∈ ddlTsSet t → ts < DefaultTimestamp in_ →
  (∀ ts', ts' ∈ ddlTsSet t → ts' ≠ ts → DefaultTimestamp in_ ≤ ts') →
  (updateTimeTick t in_).2 = Blocked ∧
  (updateTimeTick (removeDdlTimeTick t ts) in_).2 ≠ Blocked.
Proof.
  intros Hinv Hshape Hreg Hu Hts Hlt Hoth. split.
  - apply updateTimeTick_blocked_min; [done|done|].
    apply ddl_min_lt_iff; [done|done|]. by exists ts.
  - assert (proxyTimeTick (removeDdlTimeTick t ts) = proxyTimeTick t) as Htab.
    { unfold removeDdlTimeTick. by repeat case_decide. }
    rewrite updateTimeTick_blocked_min; [|done|by rewrite Htab].
    rewrite ddl_min_lt_iff; [|by apply ddl_inv_remove|done].
    intros (ts' & Hts' & Hlt'). rewrite removeDdlTimeTick_set in Hts'.
    apply elem_of_difference in Hts' as [Hin Hne].
    rewrite elem_of_singleton in Hne. specialize (Hoth ts' Hin Hne). lia.
Qed.

Lemma removeDdlTimeTick_releases_witness :
  let t := addDdlTimeTick (addDdlTimeTick (addProxy (newTimeTickSync 1) 1) 500) 900 in
  let in_ := ChannelTimeTick 1 [] [] 600 in
  ddl_inv t ∧ (updateTimeTick t in_).2 = Blocked ∧
  (updateTimeTick (removeDdlTimeTick t 500) in_).2 = Accepted.
Proof.
  intros t in_.
  assert (ddl_inv t) as Hinv.
  { do 2 (apply ddl_inv_add; [u64|]). apply (ddl_inv_new 1). }
  assert (well_shaped in_) as Hshape.
  { split; simpl; [intros [_ ?]; discriminate|reflexivity]. }
  assert (is_Some (proxyTimeTick t !! SourceID in_)) as Hreg by (vm_compute; by eexists).
  assert (is_uint64 (DefaultTimestamp in_)) as Hu by (simpl; u64).
  assert (500 ∈ ddlTsSet t) as Hts by (simpl; set_solver).
  assert (500 < DefaultTimestamp in_) as Hlt by (simpl; lia).
  assert (∀ ts', ts' ∈ ddlTsSet t → ts' ≠ 500 → DefaultTimestamp in_ ≤ ts') as Hoth.
  { simpl. intros ts' Hin Hne.
    assert (ts' = 900) as -> by set_solver. lia. }
  split; [exact Hinv|].
  split; [exact (proj1 (removeDdlTimeTick_releases t 500 in_ Hinv Hshape Hreg Hu Hts Hlt Hoth))|].
  vm_compute. reflexivity.
Defined.

(** ** The number of proxies *)

(** X21.  [getProxyNum] counts the registered proxies: [addProxy] adds one
    when the id is new and none otherwise, [delProxy] takes one off when the
    id is registered and none otherwise, also when it sends a snapshot, and a
    drain leaves the number as it is. *)
Theorem getProxyNum_membership t id :
  getProxyNum (newTimeTickSync (sourceID t)) = 0%nat ∧
  getProxyNum (addProxy t id)
  = (if decide (is_Some (proxyTimeTick t !! id)) then getProxyNum t
     else S (getProxyNum t)) ∧
  S (getProxyNum (delProxy t id).1)
  = (if decide (is_Some (proxyTimeTick t !! id)) then getProxyNum t
     else S (getProxyNum t)) ∧
  getProxyNum (sendToChannel t).1 = getProxyNum t.
Proof.
  unfold getProxyNum. split; [done|]. split; [|split].
  - simpl. destruct (proxyTimeTick t !! id) as [v|] eqn:Hid.
    + rewrite decide_True by (by eexists).
      apply map_size_insert_Some. by eexists.
    + rewrite decide_False by (by intros [? ?]).
      by apply map_size_insert_None.
  - unfold delProxy. destruct (proxyTimeTick t !! id) as [v|] eqn:Hid.
    + rewrite decide_True by (by eexists).
      rewrite <-size_dom, sendToChannel_dom, size_dom. simpl.
      rewrite <-(map_size_insert_None id v) by apply lookup_delete_eq.
      by rewrite insert_delete_eq, insert_id.
    + by rewrite decide_False by (by intros [? ?]).
  - by rewrite <-!size_dom, sendToChannel_dom.
Qed.

(** ** An idle proxy *)

Lemma mutate_keeps_nil t e q :
  proxyTimeTick t !! q = Some None → ¬ touches q e →
  proxyTimeTick (mutate t e).1 !! q = Some None.
Proof.
  intros Hq Ht. destruct e as [ts|ts|in_|id|id|ids]; simpl in *.
  - done.
  - unfold removeDdlTimeTick. by repeat case_decide.
  - destruct (updateTimeTick t in_).2; try done. simpl.
    by rewrite lookup_insert_ne.
  - rewrite lookup_insert. by case_decide.
  - destruct (proxyTimeTick t !! id); [|done]. simpl.
    by rewrite lookup_delete_ne.
  - rewrite clearProxy_lookup. by case_decide.
Qed.

(** X22.  One idle proxy holds back every heartbeat: while a registered
    proxy has a [nil] entry and neither reports nor is removed, no call sends
    a snapshot, whatever the other proxies report, and its entry is still
    [nil] afterwards. *)
Theorem idle_proxy_stalls t q evs :
  proxyTimeTick t !! q = Some None →
  Forall (λ e, ¬ touches q e) evs →
  run t evs = [] ∧ proxyTimeTick (after t evs) !! q = Some None.
Proof.
  revert t. induction evs as [|e evs IH]; intros t Hq Hall; [done|].
  apply Forall_cons in Hall as [He Hall].
  pose proof (mutate_keeps_nil t e q Hq He) as Hq'.
  unfold after. simpl.
  destruct (step t e) as [t' [S|]] eqn:Hstep; simpl.
  - apply step_sent in Hstep. destruct Hstep as (_ & -> & [_ Hrep] & _).
    by destruct (Hrep _ _ Hq').
  - apply step_unsent in Hstep. apply IH; [|done]. by rewrite Hstep.
Qed.

Lemma idle_proxy_stalls_witness :
  let t := addProxy (addProxy (newTimeTickSync 1) 1) 2 in
  let evs := [EvUpdate (ChannelTimeTick 1 ["c0"%string] [200] 200);
              EvAddDdl 5; EvUpdate (ChannelTimeTick 1 ["c0"%string] [300] 300)] in
  proxyTimeTick t !! 2 = Some None ∧ run t evs = [].
Proof.
  intros t evs.
  assert (proxyTimeTick t !! 2 = Some None) as Hq by (vm_compute; reflexivity).
  assert (Forall (λ e, ¬ touches 2 e) evs) as Hall.
  { repeat constructor; simpl; intros ?; done. }
  split; [exact Hq|]. exact (proj1 (idle_proxy_stalls t 2 evs Hq Hall)).
Defined.
